(** * LRU cache: the C++ linked-list implementation and the TypeScript
      Map implementation

    Sources embedded here:
    - [src/c++/LRUCache.cpp]: [struct Node], [class LRUCache] with the private
      helpers [addNode], [removeNode], [moveToHead], [popTail] and the public
      constructor, [get] and [put];
    - [src/typescript/lruCache.ts]: [class LRUCache<K, V>] over a JavaScript
      [Map], whose iteration order is insertion order.

    The C++ code manipulates heap nodes through raw pointers, so it is
    embedded over an explicit heap: every field access is a load or a store
    that faults on an address that is not allocated.  The JavaScript [Map] is
    embedded as an association list in insertion order. *)

From Stdlib Require Import ZArith Lia.
From stdpp Require Import gmap list fin_maps strings.

#[local] Open Scope Z_scope.
#[local] Set Warnings "-clear-no-such-hyp".

(** ** Machine integers of the C++ code (LP64) *)

Definition INT_MIN : Z := - 2 ^ 31.
Definition INT_MAX : Z := 2 ^ 31 - 1.
Definition SIZE_MODULUS : Z := 2 ^ 64.

Definition int_range (z : Z) : Prop := INT_MIN <= z <= INT_MAX.

(** The usual arithmetic conversions turn the [int] operand of
    [cache.size() > capacity] into a [size_t]: reduction modulo [2^64]. *)
Definition to_size_t (z : Z) : Z := z mod SIZE_MODULUS.

(** ** Client calls

    Both classes offer [get(key)] and [put(key, value)]. *)
Inductive op (K V : Type) : Type :=
  | Get (k : K)
  | Put (k : K) (v : V).
Arguments Get {K V} k.
Arguments Put {K V} k v.

(** ** The C++ implementation *)

Module Cpp.

Abbreviation ptr := N (only parsing).
Definition nullptr : ptr := 0%N.

(** [struct Node] with its constructor [Node(int k, int v)]. *)
Record Node := mkNode { key : Z; value : Z; prev : ptr; next : ptr }.

Definition Node_ctor (k v : Z) : Node :=
  {| key := k; value := v; prev := nullptr; next := nullptr |}.

(** The free store: allocated nodes by address, and the next address [new]
    hands out.  Addresses are never reused, [nullptr] is never allocated. *)
Record heap := mkHeap { cells : gmap N Node; nextblock : N }.

Definition empty_heap : heap := {| cells := ∅; nextblock := 1%N |}.

(** Heap computations: [None] is a fault, the dereference of an address
    that holds no node. *)
Definition M (A : Type) : Type := heap -> option (A * heap).

Definition ret {A} (a : A) : M A := fun h => Some (a, h).

Definition bind {A B} (f : A -> M B) (m : M A) : M B :=
  fun h => match m h with
           | Some (a, h') => f a h'
           | None => None
           end.

#[export] Instance M_ret : MRet M := @ret.
#[export] Instance M_bind : MBind M := @bind.

(** The three ways the code changes the heap. *)
Definition upd (f : Node -> Node) (p : ptr) (h : heap) : heap :=
  {| cells := alter f p (cells h); nextblock := nextblock h |}.

Definition alloc (n : Node) (h : heap) : heap :=
  {| cells := <[nextblock h := n]> (cells h);
     nextblock := N.succ (nextblock h) |}.

Definition free (p : ptr) (h : heap) : heap :=
  {| cells := delete p (cells h); nextblock := nextblock h |}.

Definition load (p : ptr) : M Node :=
  fun h => match cells h !! p with
           | Some n => Some (n, h)
           | None => None
           end.

Definition modify (f : Node -> Node) (p : ptr) : M unit :=
  fun h => match cells h !! p with
           | Some _ => Some (tt, upd f p h)
           | None => None
           end.

(** [new Node(k, v)] *)
Definition new_Node (k v : Z) : M ptr :=
  fun h => Some (nextblock h, alloc (Node_ctor k v) h).

(** [delete p] *)
Definition delete_Node (p : ptr) : M unit :=
  fun h => match cells h !! p with
           | Some _ => Some (tt, free p h)
           | None => None
           end.

(** Field reads [p->f] and field writes [p->f = x]. *)
Definition with_value (v : Z) (n : Node) : Node :=
  {| key := key n; value := v; prev := prev n; next := next n |}.
Definition with_prev (q : ptr) (n : Node) : Node :=
  {| key := key n; value := value n; prev := q; next := next n |}.
Definition with_next (q : ptr) (n : Node) : Node :=
  {| key := key n; value := value n; prev := prev n; next := q |}.

Definition get_key (p : ptr) : M Z := n ← load p; ret (key n).
Definition get_value (p : ptr) : M Z := n ← load p; ret (value n).
Definition get_prev (p : ptr) : M ptr := n ← load p; ret (prev n).
Definition get_next (p : ptr) : M ptr := n ← load p; ret (next n).
Definition set_value (p : ptr) (v : Z) : M unit := modify (with_value v) p.
Definition set_prev (p q : ptr) : M unit := modify (with_prev q) p.
Definition set_next (p q : ptr) : M unit := modify (with_next q) p.

(** [class LRUCache]: the object's own fields.  The nodes live on the heap. *)
Record LRUCache := mkLRUCache {
  capacity : Z;
  cache : gmap Z N;
  head : ptr;
  tail : ptr
}.

Definition with_cache (m : gmap Z N) (this : LRUCache) : LRUCache :=
  {| capacity := capacity this; cache := m;
     head := head this; tail := tail this |}.

Section Methods.
Variable this : LRUCache.

(** [void addNode(Node* node)] *)
Definition addNode (node : ptr) : M unit :=
  set_prev node (head this);;
  hn ← get_next (head this);
  set_next node hn;;
  hn' ← get_next (head this);
  set_prev hn' node;;
  set_next (head this) node.

(** [void removeNode(Node* node)] *)
Definition removeNode (node : ptr) : M unit :=
  prevNode ← get_prev node;
  nextNode ← get_next node;
  set_next prevNode nextNode;;
  set_prev nextNode prevNode.

(** [void moveToHead(Node* node)] *)
Definition moveToHead (node : ptr) : M unit :=
  removeNode node;;
  addNode node.

(** [Node* popTail()] *)
Definition popTail : M ptr :=
  node ← get_prev (tail this);
  removeNode node;;
  ret node.

(** [int get(int key)]: the result and the object after the call. *)
Definition get (k : Z) : M (Z * LRUCache) :=
  match cache this !! k with
  | None => ret (-1, this)
  | Some node =>
      moveToHead node;;
      v ← get_value node;
      ret (v, this)
  end.

(** [void put(int key, int value)]: the object after the call.  The
    comparison [cache.size() > capacity] is between a [size_t] and an
    [int]. *)
Definition put (k v : Z) : M LRUCache :=
  match cache this !! k with
  | Some node =>
      set_value node v;;
      moveToHead node;;
      ret this
  | None =>
      newNode ← new_Node k v;
      let cache1 := <[k := newNode]> (cache this) in
      addNode newNode;;
      if bool_decide (to_size_t (capacity this) < Z.of_nat (size cache1))
      then
        lruNode ← popTail;
        lk ← get_key lruNode;
        delete_Node lruNode;;
        ret (with_cache (delete lk cache1) this)
      else ret (with_cache cache1 this)
  end.
End Methods.

(** [LRUCache(int capacity)] *)
Definition LRUCache_ctor (c : Z) : M LRUCache :=
  hd ← new_Node 0 0;
  tl ← new_Node 0 0;
  set_next hd tl;;
  set_prev tl hd;;
  ret {| capacity := c; cache := ∅; head := hd; tail := tl |}.

(** The program state between two calls of a client. *)
Definition state : Type := LRUCache * heap.

(** One call: what it returns ([Some r] for [get], [None] for the [void]
    method [put]) and the state it leaves. *)
Definition call (o : op Z Z) (s : state) : option (option Z * state) :=
  match o with
  | Get k => match get s.1 k s.2 with
             | Some ((r, this'), h') => Some (Some r, (this', h'))
             | None => None
             end
  | Put k v => match put s.1 k v s.2 with
               | Some (this', h') => Some (None, (this', h'))
               | None => None
               end
  end.

(** A sequence of calls: the results in call order and the final state. *)
Fixpoint calls (os : list (op Z Z)) (s : state) : option (list (option Z) * state) :=
  match os with
  | [] => Some ([], s)
  | o :: os' =>
      match call o s with
      | Some (r, s') =>
          match calls os' s' with
          | Some (rs, s'') => Some (r :: rs, s'')
          | None => None
          end
      | None => None
      end
  end.

(** Construction on a fresh heap followed by a sequence of calls. *)
Definition session (c : Z) (os : list (op Z Z)) : option (list (option Z) * state) :=
  match LRUCache_ctor c empty_heap with
  | Some s => calls os s
  | None => None
  end.

(** What a client can tell about a state: the resident keys and their
    number, both read off the hash map. *)
Definition residents (s : state) : gset Z := dom (cache s.1).
Definition count (s : state) : nat := size (cache s.1).

Definition observe (c : Z) (os : list (op Z Z))
  : option (list (option Z) * gset Z) :=
  match session c os with
  | Some (rs, s) => Some (rs, residents s)
  | None => None
  end.

(** The state the constructor leaves on the fresh heap: the two dummy nodes
    at addresses 1 and 2, pointing at each other. *)
Definition init (c : Z) : state :=
  ({| capacity := c; cache := ∅; head := 1%N; tail := 2%N |},
   upd (with_prev 1%N) 2%N
     (upd (with_next 2%N) 1%N
        (alloc (Node_ctor 0 0) (alloc (Node_ctor 0 0) empty_heap)))).

(** The state after a session; [init] stands in should a call fault. *)
Definition after (c : Z) (os : list (op Z Z)) : state :=
  match session c os with
  | Some (_, s) => s
  | None => init c
  end.

(** [void display()]: the (key, value) pairs from [head->next] up to [tail].
    The loop is bounded by the number of allocated nodes. *)
Fixpoint walk (fuel : nat) (tl cur : ptr) : M (list (Z * Z)) :=
  match fuel with
  | O => fun _ => None
  | S fuel' =>
      if bool_decide (cur = tl) then ret []
      else
        n ← load cur;
        rest ← walk fuel' tl (next n);
        ret ((key n, value n) :: rest)
  end.

Definition display (this : LRUCache) : M (list (Z * Z)) :=
  fun h =>
    (first ← get_next (head this);
     walk (S (size (cells h))) (tail this) first) h.

(** *** The shape of the heap between two calls *)

(** A field of the node at an address, when one is allocated there. *)
Definition fld {A} (f : Node -> A) (h : heap) (p : ptr) : option A :=
  f <$> cells h !! p.

Definition allocated (h : heap) (p : ptr) : Prop := is_Some (cells h !! p).

(** Consecutive nodes of a chain point at each other. *)
Fixpoint linked (h : heap) (c : list N) : Prop :=
  match c with
  | a :: c' =>
      match c' with
      | b :: _ => fld next h a = Some b /\ fld prev h b = Some a /\ linked h c'
      | [] => True
      end
  | [] => True
  end.

(** Two heaps that hold the same keys and values at the same addresses. *)
Definition same_data (h h' : heap) : Prop :=
  nextblock h' = nextblock h /\
  forall x, fld key h' x = fld key h x /\ fld value h' x = fld value h x.

(** Every allocated address is below the next address [new] hands out. *)
Definition bounded (h : heap) : Prop :=
  forall p, allocated h p -> (p < nextblock h)%N.

(** The entry of a resident node: its address and its (key, value). *)
Definition entry : Type := N * (Z * Z).

Definition index_of (ns : list entry) : gmap Z N :=
  list_to_map ((fun e : entry => (e.2.1, e.1)) <$> ns).

(** [repr this h ns]: the nodes strictly between the two dummy nodes are, from
    [head] to [tail], the entries [ns]; their keys differ pairwise; the hash
    map sends each of these keys to its node, and nothing else. *)
Record repr (this : LRUCache) (h : heap) (ns : list entry) : Prop := mkRepr {
  repr_nodup : NoDup (head this :: ns.*1 ++ [tail this]);
  repr_linked : linked h (head this :: ns.*1 ++ [tail this]);
  repr_fields :
    Forall (fun e : entry =>
              fld key h e.1 = Some e.2.1 /\ fld value h e.1 = Some e.2.2) ns;
  repr_keys : NoDup (ns.*2.*1);
  repr_cache : cache this = index_of ns;
  repr_bound : bounded h
}.

(** The states a client can observe: after construction with capacity [c]
    and any number of calls. *)
Inductive reachable (c : Z) : state -> Prop :=
  | reach_ctor s :
      LRUCache_ctor c empty_heap = Some s -> reachable c s
  | reach_call s o r s' :
      reachable c s -> call o s = Some (r, s') -> reachable c s'.

(** [~LRUCache()]: from [head] along [next], delete every node, until
    [nullptr].  The loop is bounded by the number of allocated nodes. *)
Fixpoint destroy (fuel : nat) (current : ptr) : M unit :=
  match fuel with
  | O => fun _ => None
  | S fuel' =>
      if bool_decide (current = nullptr) then ret tt
      else
        next ← get_next current;
        delete_Node current;;
        destroy fuel' next
  end.

Definition LRUCache_dtor (this : LRUCache) : M unit :=
  fun h => destroy (S (size (cells h))) (head this) h.

(** [tidy this h ns]: on top of [repr], the chain ends in [nullptr] after
    [tail], and the allocated nodes are those of the chain and no others. *)
Record tidy (this : LRUCache) (h : heap) (ns : list entry) : Prop := mkTidy {
  tidy_repr : repr this h ns;
  tidy_tail : fld next h (tail this) = Some nullptr;
  tidy_null : ~ allocated h nullptr;
  tidy_pos : (0 < nextblock h)%N;
  tidy_dom : dom (cells h) = list_to_set (head this :: ns.*1 ++ [tail this])
}.

End Cpp.

(** ** The TypeScript implementation *)

Module TS.

Section JSMap.
Context {K V : Type} `{EqDecision K}.

(** A JavaScript [Map]: its entries in insertion order.  [set] on a key
    that is present keeps the entry's position, [set] on a new key appends,
    [delete] removes the entry of the key. *)
Fixpoint map_get (k : K) (m : list (K * V)) : option V :=
  match m with
  | [] => None
  | (k', v) :: m' => if decide (k' = k) then Some v else map_get k m'
  end.

Definition map_has (k : K) (m : list (K * V)) : bool :=
  match map_get k m with
  | Some _ => true
  | None => false
  end.

Fixpoint map_delete (k : K) (m : list (K * V)) : list (K * V) :=
  match m with
  | [] => []
  | (k', v) :: m' =>
      if decide (k' = k) then m' else (k', v) :: map_delete k m'
  end.

Fixpoint map_set (k : K) (v : V) (m : list (K * V)) : list (K * V) :=
  match m with
  | [] => [(k, v)]
  | (k', v') :: m' =>
      if decide (k' = k) then (k, v) :: m' else (k', v') :: map_set k v m'
  end.

Definition map_size (m : list (K * V)) : nat := length m.

(** [m.keys().next().value]: the oldest key, [undefined] on an empty map. *)
Definition map_first_key (m : list (K * V)) : option K :=
  match m with
  | [] => None
  | (k, _) :: _ => Some k
  end.

(** [class LRUCache<K, V>] *)
Record LRUCache := mkLRUCache {
  capacity : Z;
  cache : list (K * V)
}.

Definition with_cache (m : list (K * V)) (this : LRUCache) : LRUCache :=
  {| capacity := capacity this; cache := m |}.

(** [constructor(capacity: number)] *)
Definition LRUCache_ctor (c : Z) : LRUCache :=
  {| capacity := c; cache := [] |}.

(** [get(key: K): V | undefined]; [None] is [undefined]. *)
Definition get (this : LRUCache) (k : K) : option V * LRUCache :=
  if negb (map_has k (cache this)) then (None, this)
  else
    match map_get k (cache this) with
    | Some value =>
        (Some value,
         with_cache (map_set k value (map_delete k (cache this))) this)
    | None => (None, this)
    end.

(** [put(key: K, value: V): void].  [delete(oldestKey)] with
    [oldestKey === undefined] deletes nothing. *)
Definition put (this : LRUCache) (k : K) (v : V) : LRUCache :=
  let m :=
    if map_has k (cache this) then map_delete k (cache this)
    else if bool_decide (capacity this <= Z.of_nat (map_size (cache this)))
    then
      match map_first_key (cache this) with
      | Some oldestKey => map_delete oldestKey (cache this)
      | None => cache this
      end
    else cache this in
  with_cache (map_set k v m) this.

(** One call: [None] for the [void] method [put], [Some r] for [get]. *)
Definition call (o : op K V) (this : LRUCache)
  : option (option V) * LRUCache :=
  match o with
  | Get k => let '(r, this') := get this k in (Some r, this')
  | Put k v => (None, put this k v)
  end.

Fixpoint calls (os : list (op K V)) (this : LRUCache)
  : list (option (option V)) * LRUCache :=
  match os with
  | [] => ([], this)
  | o :: os' =>
      let '(r, this') := call o this in
      let '(rs, this'') := calls os' this' in
      (r :: rs, this'')
  end.

Definition session (c : Z) (os : list (op K V))
  : list (option (option V)) * LRUCache :=
  calls os (LRUCache_ctor c).

(** The resident keys, oldest first. *)
Definition keys (this : LRUCache) : list K := (cache this).*1.

(** The objects a client can observe: after construction with capacity [c]
    and any number of calls. *)
Inductive reachable (c : Z) : LRUCache -> Prop :=
  | reach_ctor : reachable c (LRUCache_ctor c)
  | reach_call this o :
      reachable c this -> reachable c (call o this).2.
End JSMap.

Arguments LRUCache : clear implicits.

End TS.

(** ** The recency list of the C++ cache

    What the chain from [head->next] to [tail] holds, as (key, value) pairs,
    most recently used first, and how [get] and [put] change it.  The lemmas
    of [CppHeap] below derive each equation from the pointer code. *)

Module Recency.

Fixpoint assoc (k : Z) (l : list (Z * Z)) : option Z :=
  match l with
  | [] => None
  | (k', v) :: l' => if decide (k' = k) then Some v else assoc k l'
  end.

Fixpoint remove (k : Z) (l : list (Z * Z)) : list (Z * Z) :=
  match l with
  | [] => []
  | (k', v) :: l' => if decide (k' = k) then l' else (k', v) :: remove k l'
  end.

(** [moveToHead] of the node of [k], holding [v]. *)
Definition touch (k v : Z) (l : list (Z * Z)) : list (Z * Z) :=
  (k, v) :: remove k l.

Definition lru_get (k : Z) (l : list (Z * Z)) : Z * list (Z * Z) :=
  match assoc k l with
  | None => (-1, l)
  | Some v => (v, touch k v l)
  end.

Definition lru_put (c k v : Z) (l : list (Z * Z)) : list (Z * Z) :=
  match assoc k l with
  | Some _ => touch k v l
  | None =>
      if bool_decide (to_size_t c < Z.of_nat (S (length l)))
      then removelast ((k, v) :: l)
      else (k, v) :: l
  end.

Definition lru_call (c : Z) (o : op Z Z) (l : list (Z * Z))
  : option Z * list (Z * Z) :=
  match o with
  | Get k => (Some (lru_get k l).1, (lru_get k l).2)
  | Put k v => (None, lru_put c k v l)
  end.

Fixpoint lru_calls (c : Z) (os : list (op Z Z)) (l : list (Z * Z))
  : list (option Z) * list (Z * Z) :=
  match os with
  | [] => ([], l)
  | o :: os' =>
      let r := lru_call c o l in
      let rest := lru_calls c os' r.2 in
      (r.1 :: rest.1, rest.2)
  end.

(** The C++ state [s] holds the recency list [l]. *)
Definition holds (s : Cpp.state) (l : list (Z * Z)) : Prop :=
  exists ns, Cpp.repr s.1 s.2 ns /\ ns.*2 = l.

End Recency.

(** ** Comparing what the two implementations return

    A call of the C++ class returns nothing ([put]) or an [int]; a call of
    the TypeScript class returns nothing or [V | undefined].  The C++ result
    [-1] stands for the TypeScript [undefined]. *)
Definition same_result (r_cpp : option Z) (r_ts : option (option Z)) : Prop :=
  match r_cpp, r_ts with
  | None, None => True
  | Some z, Some (Some v) => z = v
  | Some z, Some None => z = -1
  | _, _ => False
  end.

(** The calls [put(k1, v1); ...; put(kN, vN)] and [get(k1); ...; get(kN)]. *)
Definition puts {K V} (kvs : list (K * V)) : list (op K V) :=
  (fun kv => Put kv.1 kv.2) <$> kvs.
Definition gets {K V} (ks : list K) : list (op K V) := Get <$> ks.

(** The key a call is about. *)
Definition op_key {K V} (o : op K V) : K :=
  match o with
  | Get k => k
  | Put k _ => k
  end.

(** The example at the end of [lruCache.ts], up to its first [get]:
    capacity 3, [put('a', 1); put('b', 2); put('c', 3); get('a')]. *)
Definition ts_example : list (op string Z) :=
  [Put "a"%string 1; Put "b"%string 2; Put "c"%string 3; Get "a"%string].

(** The test sequence of [main] in [LRUCache.cpp]. *)
Definition scenario : list (op Z Z) :=
  [Put 1 1; Put 2 2; Get 1; Put 3 3; Get 2; Put 4 4; Get 1; Get 3; Get 4].

(** * Proofs *)

(** ** The C++ heap *)

Module CppHeap.
Import Cpp.

Lemma bind_run {A B} (m : M A) (f : A -> M B) h a h' :
  m h = Some (a, h') -> (m ≫= f) h = f a h'.
Proof. intros E. unfold mbind, M_bind, bind. by rewrite E. Qed.

Lemma fld_allocated {A} (f : Node -> A) h p x :
  fld f h p = Some x -> allocated h p.
Proof.
  unfold fld, allocated. destruct (cells h !! p); [eauto | discriminate].
Qed.

Lemma allocated_fld {A} (f : Node -> A) h p :
  allocated h p -> exists x, fld f h p = Some x.
Proof. unfold fld. intros [n ->]. eauto. Qed.

Lemma fld_upd_ne {A} (g : Node -> A) f p h q :
  q <> p -> fld g (upd f p h) q = fld g h q.
Proof. intros. unfold fld, upd; simpl. by rewrite lookup_alter_ne. Qed.

Lemma fld_upd_inv {A} (g : Node -> A) f p h q :
  (forall n, g (f n) = g n) -> fld g (upd f p h) q = fld g h q.
Proof.
  intros Hg. unfold fld, upd; simpl.
  destruct (decide (q = p)) as [->|].
  - rewrite lookup_alter_eq. destruct (cells h !! p); simpl; by rewrite ?Hg.
  - by rewrite lookup_alter_ne.
Qed.

Lemma fld_upd_eq {A} (g : Node -> A) f p h x :
  allocated h p -> (forall n, g (f n) = x) -> fld g (upd f p h) p = Some x.
Proof.
  intros [n Hn] Hg. unfold fld, upd; simpl.
  rewrite lookup_alter_eq, Hn. simpl. by rewrite Hg.
Qed.

Lemma allocated_upd f p h q : allocated (upd f p h) q <-> allocated h q.
Proof.
  unfold allocated, upd; simpl. destruct (decide (q = p)) as [->|].
  - rewrite lookup_alter_eq. by rewrite fmap_is_Some.
  - by rewrite lookup_alter_ne.
Qed.

Lemma fld_alloc_ne {A} (g : Node -> A) n h q :
  q <> nextblock h -> fld g (alloc n h) q = fld g h q.
Proof. intros. unfold fld, alloc; simpl. by rewrite lookup_insert_ne. Qed.

Lemma fld_alloc_eq {A} (g : Node -> A) n h :
  fld g (alloc n h) (nextblock h) = Some (g n).
Proof. unfold fld, alloc; simpl. by rewrite lookup_insert_eq. Qed.

Lemma fld_free_ne {A} (g : Node -> A) p h q :
  q <> p -> fld g (free p h) q = fld g h q.
Proof. intros. unfold fld, free; simpl. by rewrite lookup_delete_ne. Qed.

Lemma load_run h p n : cells h !! p = Some n -> load p h = Some (n, h).
Proof. intros E. unfold load. by rewrite E. Qed.

Lemma get_fld_run {A} (g : Node -> A) h p x :
  fld g h p = Some x -> (n ← load p; ret (g n)) h = Some (x, h).
Proof.
  unfold fld. intros E. destruct (cells h !! p) as [n|] eqn:En; [|done].
  erewrite bind_run by (by apply load_run). simpl in E. by inversion E.
Qed.

Lemma modify_run_free h p :
  allocated h p -> delete_Node p h = Some (tt, free p h).
Proof. intros [n E]. unfold delete_Node. by rewrite E. Qed.

Lemma modify_run f h p :
  allocated h p -> modify f p h = Some (tt, upd f p h).
Proof. intros [n E]. unfold modify. by rewrite E. Qed.

Lemma get_next_run h p q : fld next h p = Some q -> get_next p h = Some (q, h).
Proof. apply get_fld_run. Qed.
Lemma get_prev_run h p q : fld prev h p = Some q -> get_prev p h = Some (q, h).
Proof. apply get_fld_run. Qed.
Lemma get_key_run h p k : fld key h p = Some k -> get_key p h = Some (k, h).
Proof. apply get_fld_run. Qed.
Lemma get_value_run h p v :
  fld value h p = Some v -> get_value p h = Some (v, h).
Proof. apply get_fld_run. Qed.

Lemma set_next_run h p q :
  allocated h p -> set_next p q h = Some (tt, upd (with_next q) p h).
Proof. apply modify_run. Qed.
Lemma set_prev_run h p q :
  allocated h p -> set_prev p q h = Some (tt, upd (with_prev q) p h).
Proof. apply modify_run. Qed.
Lemma set_value_run h p v :
  allocated h p -> set_value p v h = Some (tt, upd (with_value v) p h).
Proof. apply modify_run. Qed.

(** *** Data kept by pointer updates *)

Lemma same_data_trans h1 h2 h3 :
  same_data h1 h2 -> same_data h2 h3 -> same_data h1 h3.
Proof.
  intros [N1 F1] [N2 F2]. split; [congruence|].
  intros x. destruct (F1 x), (F2 x). split; congruence.
Qed.

Lemma same_data_upd_next h p q : same_data h (upd (with_next q) p h).
Proof. split; [done|]. intros x. by rewrite !fld_upd_inv. Qed.

Lemma same_data_upd_prev h p q : same_data h (upd (with_prev q) p h).
Proof. split; [done|]. intros x. by rewrite !fld_upd_inv. Qed.

Lemma same_data_allocated h h' p :
  same_data h h' -> allocated h' p <-> allocated h p.
Proof.
  intros [_ F]. destruct (F p) as [Fk _]. split; intros Ha.
  - destruct (allocated_fld key _ _ Ha) as [k Hk].
    rewrite Fk in Hk. by eapply fld_allocated.
  - destruct (allocated_fld key _ _ Ha) as [k Hk].
    rewrite <- Fk in Hk. by eapply fld_allocated.
Qed.

(** *** Chains *)

Lemma linked_cons h a b c :
  linked h (a :: b :: c) <->
  fld next h a = Some b /\ fld prev h b = Some a /\ linked h (b :: c).
Proof. done. Qed.

Lemma linked_app_inv h c1 a c2 :
  linked h (c1 ++ a :: c2) -> linked h (c1 ++ [a]) /\ linked h (a :: c2).
Proof.
  induction c1 as [|x c1 IH]; [done|].
  destruct c1 as [|y c1]; simpl in *.
  - intros (? & ? & ?). done.
  - intros (? & ? & Hl). destruct (IH Hl). done.
Qed.

Lemma linked_app h c1 a c2 :
  linked h (c1 ++ [a]) -> linked h (a :: c2) -> linked h (c1 ++ a :: c2).
Proof.
  induction c1 as [|x c1 IH]; [done|].
  destruct c1 as [|y c1]; simpl in *.
  - intros (? & ? & _) ?. done.
  - intros (? & ? & Hl) ?. split_and!; [done..|]. by apply IH.
Qed.

Lemma linked_allocated h c p : linked h c -> (2 <= length c)%nat -> p ∈ c -> allocated h p.
Proof.
  induction c as [|a c IH]; [by intros _ _ ?%elem_of_nil|].
  destruct c as [|b c]; [simpl; lia|].
  intros (Hn & Hp & Hl) _ [->|Hin]%elem_of_cons.
  - by eapply fld_allocated.
  - destruct c as [|b' c].
    + apply list_elem_of_singleton in Hin as ->. by eapply fld_allocated.
    + apply IH; [done | simpl; lia | done].
Qed.

Lemma linked_upd_next h c a q :
  a ∉ removelast c -> linked h c -> linked (upd (with_next q) a h) c.
Proof.
  induction c as [|x c IH]; [done|].
  destruct c as [|y c]; [done|].
  change (removelast (x :: y :: c)) with (x :: removelast (y :: c)).
  intros [Hne Hni]%not_elem_of_cons (Hn & Hp & Hl).
  apply linked_cons. split_and!.
  - by rewrite fld_upd_ne.
  - by rewrite fld_upd_inv.
  - by apply IH.
Qed.

Lemma linked_upd_prev h c b q :
  b ∉ List.tl c -> linked h c -> linked (upd (with_prev q) b h) c.
Proof.
  induction c as [|x c IH]; [done|].
  destruct c as [|y c]; [done|].
  simpl List.tl. intros [Hne Hni]%not_elem_of_cons (Hn & Hp & Hl).
  apply linked_cons. split_and!.
  - by rewrite fld_upd_inv.
  - by rewrite fld_upd_ne.
  - by apply IH.
Qed.

Lemma elem_of_removelast (x : N) l : x ∈ removelast l -> x ∈ l.
Proof.
  induction l as [|y l IH]; [done|].
  destruct l as [|z l]; [by intros ?%elem_of_nil|].
  change (removelast (y :: z :: l)) with (y :: removelast (z :: l)).
  intros [->|?]%elem_of_cons; [left|right; by apply IH].
Qed.

Lemma elem_of_tl (x : N) l : x ∈ List.tl l -> x ∈ l.
Proof. destruct l; [done|]. simpl. by right. Qed.

#[local] Arguments linked : simpl never.

(** *** The private helpers *)

Section Helpers.
Variable this : LRUCache.

Lemma removeNode_spec h cL node cR :
  cL <> [] -> cR <> [] ->
  NoDup (cL ++ node :: cR) -> linked h (cL ++ node :: cR) ->
  exists h', removeNode node h = Some (tt, h') /\
             linked h' (cL ++ cR) /\ same_data h h'.
Proof.
  intros HL HR Hnd Hl.
  destruct (exists_last HL) as (c1 & a & ->).
  destruct cR as [|b c2]; [done|]. clear HL HR.
  rewrite <- app_assoc in Hnd, Hl. simpl in Hnd, Hl.
  apply linked_app_inv in Hl as [Hl1 (Han & Hnp & Hnn & Hbp & Hl2)].
  apply NoDup_app in Hnd as (Hnd1 & Hd & Hnd2).
  apply NoDup_cons in Hnd2 as [Ha Hnd2].
  apply NoDup_cons in Hnd2 as [Hn Hnd2].
  apply NoDup_cons in Hnd2 as [Hb Hnd2].
  assert (Haa : allocated h a) by by eapply fld_allocated.
  assert (Hba : allocated h b) by by eapply fld_allocated.
  set (h1 := upd (with_next b) a h).
  set (h2 := upd (with_prev a) b h1).
  exists h2. split_and!.
  - unfold removeNode.
    erewrite bind_run by by apply get_prev_run.
    erewrite bind_run by by apply get_next_run.
    erewrite bind_run by by apply set_next_run.
    apply set_prev_run. by apply allocated_upd.
  - rewrite <- app_assoc. simpl. apply linked_app.
    + apply linked_upd_prev.
      { intros Hin%elem_of_tl. apply elem_of_app in Hin as [Hin1|Hin2].
        - apply (Hd b Hin1). set_solver.
        - apply list_elem_of_singleton in Hin2. set_solver. }
      apply linked_upd_next; [|done].
      rewrite removelast_last. intros Hin. apply (Hd a Hin). set_solver.
    + apply linked_cons. split_and!.
      * unfold h2, h1. rewrite fld_upd_inv by done. by apply fld_upd_eq.
      * apply fld_upd_eq; [by apply allocated_upd | done].
      * apply linked_upd_prev; [done|].
        apply linked_upd_next; [|done].
        intros Hin%elem_of_removelast. set_solver.
  - eapply same_data_trans; [apply same_data_upd_next|].
    apply same_data_upd_prev.
Qed.

Lemma addNode_spec h node x c :
  NoDup (node :: head this :: x :: c) -> allocated h node ->
  linked h (head this :: x :: c) ->
  exists h', addNode this node h = Some (tt, h') /\
             linked h' (head this :: node :: x :: c) /\ same_data h h'.
Proof.
  intros Hnd Hna (Hhn & Hxp & Hl).
  apply NoDup_cons in Hnd as [Hn Hnd].
  apply NoDup_cons in Hnd as [Hh Hnd].
  apply NoDup_cons in Hnd as [Hx Hnd].
  assert (Hha : allocated h (head this)) by by eapply fld_allocated.
  assert (Hxa : allocated h x) by by eapply fld_allocated.
  set (h1 := upd (with_prev (head this)) node h).
  set (h2 := upd (with_next x) node h1).
  set (h3 := upd (with_prev node) x h2).
  set (h4 := upd (with_next node) (head this) h3).
  assert (node <> head this /\ node <> x /\ head this <> x) as (? & ? & ?)
    by set_solver.
  exists h4. split_and!.
  - unfold addNode.
    erewrite bind_run by by apply set_prev_run.
    erewrite bind_run; cycle 1.
    { apply get_next_run. by rewrite fld_upd_inv. }
    erewrite bind_run; cycle 1.
    { apply set_next_run. by apply allocated_upd. }
    erewrite bind_run; cycle 1.
    { apply get_next_run.
      rewrite fld_upd_ne by done. by rewrite fld_upd_inv. }
    erewrite bind_run; cycle 1.
    { apply set_prev_run. by rewrite !allocated_upd. }
    apply set_next_run. by rewrite !allocated_upd.
  - subst h4 h3 h2 h1.
    apply linked_cons. split_and!; [| |apply linked_cons; split_and!].
    + apply fld_upd_eq; [by rewrite !allocated_upd | done].
    + rewrite fld_upd_inv by done.
      rewrite fld_upd_ne by done. rewrite fld_upd_inv by done.
      by apply fld_upd_eq.
    + rewrite fld_upd_ne by done.
      rewrite fld_upd_inv by done.
      apply fld_upd_eq; [by rewrite !allocated_upd | done].
    + rewrite fld_upd_inv by done.
      apply fld_upd_eq; [by rewrite !allocated_upd | done].
    + apply linked_upd_next.
      { intros Hin%elem_of_removelast. set_solver. }
      apply linked_upd_prev; [done|].
      apply linked_upd_next.
      { intros Hin%elem_of_removelast. set_solver. }
      apply linked_upd_prev; [|done].
      intros Hin%elem_of_tl. set_solver.
  - eapply same_data_trans; [apply same_data_upd_prev|].
    eapply same_data_trans; [apply same_data_upd_next|].
    eapply same_data_trans; [apply same_data_upd_prev|].
    apply same_data_upd_next.
Qed.

Lemma moveToHead_spec h n1 node n2 :
  NoDup (head this :: n1 ++ node :: n2 ++ [tail this]) ->
  linked h (head this :: n1 ++ node :: n2 ++ [tail this]) ->
  exists h', moveToHead this node h = Some (tt, h') /\
             linked h' (head this :: node :: n1 ++ n2 ++ [tail this]) /\
             same_data h h'.
Proof.
  intros Hnd Hl.
  assert (Hna : allocated h node).
  { eapply linked_allocated;
      [done | simpl; rewrite length_app; simpl; lia | set_solver]. }
  destruct (removeNode_spec h (head this :: n1) node (n2 ++ [tail this]))
    as (h1 & Hrun1 & Hl1 & Hsd1); [done | by destruct n2 | done..|].
  assert (exists x c, n1 ++ n2 ++ [tail this] = x :: c) as (x & c & Hxc).
  { destruct n1; [destruct n2|]; simpl; eauto. }
  simpl in Hl1. rewrite Hxc in *.
  destruct (addNode_spec h1 node x c) as (h2 & Hrun2 & Hl2 & Hsd2).
  - rewrite <- Hxc.
    eapply NoDup_Permutation_proper; [|exact Hnd].
    transitivity (head this :: node :: n1 ++ n2 ++ [tail this]);
      [apply perm_swap | apply perm_skip, Permutation_middle].
  - by apply (same_data_allocated h h1).
  - done.
  - exists h2. split_and!; [|done|by eapply same_data_trans].
    unfold moveToHead. by erewrite bind_run.
Qed.

Lemma popTail_spec h n1 node :
  NoDup (head this :: n1 ++ [node; tail this]) ->
  linked h (head this :: n1 ++ [node; tail this]) ->
  exists h', popTail this h = Some (node, h') /\
             linked h' (head this :: n1 ++ [tail this]) /\ same_data h h'.
Proof.
  intros Hnd Hl.
  destruct (removeNode_spec h (head this :: n1) node [tail this])
    as (h1 & Hrun1 & Hl1 & Hsd1); [done..|].
  exists h1. split_and!; [|done..].
  unfold popTail.
  erewrite bind_run; cycle 1.
  { apply get_prev_run.
    change (head this :: n1 ++ [node; tail this])
      with ((head this :: n1) ++ node :: [tail this]) in Hl.
    by apply linked_app_inv in Hl as [_ (_ & ? & _)]. }
  by erewrite bind_run.
Qed.
End Helpers.

(** *** The hash map as the index of the chain *)

Lemma index_of_keys (ns : list entry) :
  ((fun e : entry => (e.2.1, e.1)) <$> ns).*1 = ns.*2.*1.
Proof. induction ns as [|e ns IH]; [done|]. csimpl. by rewrite IH. Qed.

Lemma index_of_lookup_Some (ns : list entry) p k v :
  NoDup (ns.*2.*1) -> (p, (k, v)) ∈ ns -> index_of ns !! k = Some p.
Proof.
  intros Hnd Hin. apply elem_of_list_to_map_1.
  - by rewrite index_of_keys.
  - apply list_elem_of_fmap. by exists (p, (k, v)).
Qed.

Lemma index_of_lookup_None (ns : list entry) k :
  k ∉ ns.*2.*1 <-> index_of ns !! k = None.
Proof. unfold index_of. by rewrite <- not_elem_of_list_to_map, index_of_keys. Qed.

Lemma index_of_perm (ns ns' : list entry) :
  NoDup (ns.*2.*1) -> ns ≡ₚ ns' -> index_of ns = index_of ns'.
Proof.
  intros Hnd Hp. apply list_to_map_proper.
  - by rewrite index_of_keys.
  - by apply fmap_Permutation.
Qed.

Lemma index_of_size (ns : list entry) :
  NoDup (ns.*2.*1) -> size (index_of ns) = length ns.
Proof.
  intros Hnd. unfold index_of. rewrite map_size_list_to_map.
  - by rewrite length_fmap.
  - by rewrite index_of_keys.
Qed.

Lemma index_of_dom (ns : list entry) :
  dom (index_of ns) = list_to_set (ns.*2.*1).
Proof. unfold index_of. by rewrite dom_list_to_map_L, index_of_keys. Qed.

Lemma index_of_snoc_delete (ns : list entry) e :
  e.2.1 ∉ ns.*2.*1 -> delete e.2.1 (index_of (ns ++ [e])) = index_of ns.
Proof.
  intros Hni. unfold index_of. rewrite fmap_app. simpl.
  rewrite list_to_map_snoc by by rewrite index_of_keys.
  rewrite delete_insert_eq. apply delete_id.
  by apply index_of_lookup_None.
Qed.

(** *** Allocation and release *)

Lemma allocated_alloc n h p :
  allocated (alloc n h) p <-> p = nextblock h \/ allocated h p.
Proof.
  unfold allocated, alloc; simpl. rewrite lookup_insert_is_Some.
  destruct (decide (nextblock h = p)); naive_solver.
Qed.

Lemma allocated_free q h p :
  allocated (free q h) p <-> p <> q /\ allocated h p.
Proof.
  unfold allocated, free; simpl. rewrite lookup_delete_is_Some. naive_solver.
Qed.

Lemma linked_ext h h' c :
  (forall x, x ∈ c ->
             fld next h' x = fld next h x /\ fld prev h' x = fld prev h x) ->
  linked h c -> linked h' c.
Proof.
  induction c as [|a c IH]; [done|].
  destruct c as [|b c]; [done|].
  intros Hx (Hn & Hp & Hl). apply linked_cons. split_and!.
  - destruct (Hx a) as [-> _]; [set_solver | done].
  - destruct (Hx b) as [_ ->]; [set_solver | done].
  - apply IH; [|done]. intros x Hin. apply Hx. by right.
Qed.

Lemma bounded_same_data h h' : same_data h h' -> bounded h -> bounded h'.
Proof.
  intros Hsd Hb p Hp. rewrite (proj1 Hsd). apply Hb.
  by apply (same_data_allocated h h').
Qed.

Lemma bounded_upd f p h : bounded h -> bounded (upd f p h).
Proof. intros Hb q Hq. apply Hb. by apply allocated_upd in Hq. Qed.

Lemma bounded_alloc n h : bounded h -> bounded (alloc n h).
Proof.
  intros Hb q [->|Hq]%allocated_alloc; simpl; [lia|].
  specialize (Hb q Hq). lia.
Qed.

Lemma bounded_free p h : bounded h -> bounded (free p h).
Proof. intros Hb q [_ Hq]%allocated_free. by apply Hb. Qed.

Lemma bounded_fresh h : bounded h -> ~ allocated h (nextblock h).
Proof. intros Hb Ha. specialize (Hb _ Ha). lia. Qed.

(** *** The representation invariant *)

Lemma repr_chain_allocated this h ns p :
  repr this h ns -> p ∈ head this :: ns.*1 ++ [tail this] -> allocated h p.
Proof.
  intros R Hin. eapply linked_allocated; [apply (repr_linked _ _ _ R) | | done].
  simpl. rewrite length_app. simpl. lia.
Qed.

Lemma repr_perm this h h' ns ns' :
  repr this h ns -> ns' ≡ₚ ns -> same_data h h' ->
  linked h' (head this :: ns'.*1 ++ [tail this]) ->
  repr this h' ns'.
Proof.
  intros R Hp Hsd Hl. split.
  - rewrite Hp. apply (repr_nodup _ _ _ R).
  - done.
  - rewrite Hp. eapply Forall_impl; [apply (repr_fields _ _ _ R)|].
    intros e [Hk Hv]. destruct Hsd as [_ F]. destruct (F e.1) as [-> ->]. done.
  - rewrite Hp. apply (repr_keys _ _ _ R).
  - rewrite (repr_cache _ _ _ R). symmetry. apply index_of_perm; [|done].
    rewrite Hp. apply (repr_keys _ _ _ R).
  - eapply bounded_same_data; [done|]. apply (repr_bound _ _ _ R).
Qed.

Lemma repr_set_value this h n1 p k v0 v n2 :
  repr this h (n1 ++ (p, (k, v0)) :: n2) ->
  repr this (upd (with_value v) p h) (n1 ++ (p, (k, v)) :: n2).
Proof.
  intros R.
  assert (Hfst : (n1 ++ (p, (k, v)) :: n2).*1 = (n1 ++ (p, (k, v0)) :: n2).*1)
    by by rewrite !fmap_app.
  assert (Hkeys :
    (n1 ++ (p, (k, v)) :: n2).*2.*1 = (n1 ++ (p, (k, v0)) :: n2).*2.*1)
    by by rewrite !fmap_app.
  pose proof (repr_nodup _ _ _ R) as Hnd.
  assert (Hpa : allocated h p).
  { eapply repr_chain_allocated; [done|]. rewrite fmap_app. set_solver. }
  split.
  - by rewrite Hfst.
  - rewrite Hfst. eapply linked_ext; [|apply (repr_linked _ _ _ R)].
    intros x _. by rewrite !fld_upd_inv.
  - pose proof (repr_fields _ _ _ R) as HF.
    apply NoDup_cons in Hnd as [_ Hnd]. apply NoDup_app in Hnd as [Hnd _].
    rewrite fmap_app in Hnd. apply NoDup_app in Hnd as (_ & Hd & Hnd2).
    simpl in Hnd2. apply NoDup_cons in Hnd2 as [Hp2 _].
    apply Forall_app in HF as [HF1 HF2].
    apply Forall_cons in HF2 as [[Hpk Hpv] HF2].
    apply Forall_app. split; [|apply Forall_cons; split].
    + apply Forall_forall. intros e He.
      rewrite Forall_forall in HF1. destruct (HF1 e He) as [Hk Hv].
      assert (e.1 <> p).
      { intros <-. apply (Hd e.1); [by apply list_elem_of_fmap_2|]. by left. }
      by rewrite !fld_upd_ne.
    + simpl in *. split; [by rewrite fld_upd_inv | by apply fld_upd_eq].
    + apply Forall_forall. intros e He.
      rewrite Forall_forall in HF2. destruct (HF2 e He) as [Hk Hv].
      assert (e.1 <> p).
      { intros <-. apply Hp2. by apply list_elem_of_fmap_2. }
      by rewrite !fld_upd_ne.
  - rewrite Hkeys. apply (repr_keys _ _ _ R).
  - rewrite (repr_cache _ _ _ R). unfold index_of. by rewrite !fmap_app.
  - apply bounded_upd, (repr_bound _ _ _ R).
Qed.

(** *** The constructor and the public methods *)

Lemma LRUCache_ctor_spec c :
  exists this h,
    LRUCache_ctor c empty_heap = Some (this, h) /\
    repr this h [] /\ capacity this = c.
Proof.
  eexists _, _. split; [reflexivity|]. split; [|done]. split; simpl.
  - apply NoDup_cons. split; [|apply NoDup_singleton].
    intros ?%list_elem_of_singleton. done.
  - done.
  - constructor.
  - constructor.
  - done.
  - apply bounded_upd, bounded_upd, bounded_alloc, bounded_alloc.
    intros p [n Hn]. simpl in Hn. by rewrite lookup_empty in Hn.
Qed.

Lemma get_miss_spec this h k :
  cache this !! k = None -> get this k h = Some ((-1, this), h).
Proof. intros E. unfold get. by rewrite E. Qed.

Lemma repr_index this h ns p k v :
  repr this h ns -> (p, (k, v)) ∈ ns -> cache this !! k = Some p.
Proof.
  intros R Hin. rewrite (repr_cache _ _ _ R).
  eapply index_of_lookup_Some; [apply (repr_keys _ _ _ R) | done].
Qed.

Lemma get_hit_spec this h n1 p k v n2 :
  repr this h (n1 ++ (p, (k, v)) :: n2) ->
  exists h', get this k h = Some ((v, this), h') /\
             repr this h' ((p, (k, v)) :: n1 ++ n2).
Proof.
  intros R.
  assert (Hc : cache this !! k = Some p).
  { apply (repr_index this h _ p k v R). set_solver. }
  pose proof (repr_nodup _ _ _ R) as Hnd.
  pose proof (repr_linked _ _ _ R) as Hl.
  rewrite fmap_app, fmap_cons, <- app_assoc, <- app_comm_cons in Hnd, Hl.
  destruct (moveToHead_spec this h _ _ _ Hnd Hl) as (h' & Hrun & Hl' & Hsd).
  exists h'. split.
  - unfold get. rewrite Hc. erewrite bind_run by done.
    erewrite bind_run; [done|]. apply get_value_run.
    destruct Hsd as [_ F]. destruct (F p) as [_ ->].
    pose proof (repr_fields _ _ _ R) as HF.
    apply Forall_app in HF as [_ HF]. apply Forall_cons in HF as [[_ Hv] _].
    done.
  - eapply repr_perm; [done | | done |].
    + apply Permutation_middle.
    + by rewrite fmap_cons, fmap_app, <- app_comm_cons, <- app_assoc.
Qed.

Lemma put_hit_spec this h n1 p k v0 v n2 :
  repr this h (n1 ++ (p, (k, v0)) :: n2) ->
  exists h', put this k v h = Some (this, h') /\
             repr this h' ((p, (k, v)) :: n1 ++ n2).
Proof.
  intros R.
  assert (Hc : cache this !! k = Some p).
  { apply (repr_index this h _ p k v0 R). set_solver. }
  assert (Hpa : allocated h p).
  { eapply repr_chain_allocated; [done|]. rewrite fmap_app. set_solver. }
  pose proof (repr_set_value _ _ _ _ _ _ v _ R) as R1.
  pose proof (repr_nodup _ _ _ R1) as Hnd.
  pose proof (repr_linked _ _ _ R1) as Hl.
  rewrite fmap_app, fmap_cons, <- app_assoc, <- app_comm_cons in Hnd, Hl.
  destruct (moveToHead_spec this _ _ _ _ Hnd Hl) as (h' & Hrun & Hl' & Hsd).
  exists h'. split.
  - unfold put. rewrite Hc.
    erewrite bind_run by by apply set_value_run.
    by erewrite bind_run.
  - eapply repr_perm; [done | | done |].
    + apply Permutation_middle.
    + by rewrite fmap_cons, fmap_app, <- app_comm_cons, <- app_assoc.
Qed.

Lemma fields_ext h h' (ns : list entry) :
  (forall e, e ∈ ns ->
     fld key h' e.1 = fld key h e.1 /\ fld value h' e.1 = fld value h e.1) ->
  Forall (fun e : entry =>
            fld key h e.1 = Some e.2.1 /\ fld value h e.1 = Some e.2.2) ns ->
  Forall (fun e : entry =>
            fld key h' e.1 = Some e.2.1 /\ fld value h' e.1 = Some e.2.2) ns.
Proof.
  rewrite !Forall_forall. intros Hext HF e He.
  destruct (Hext e He) as [-> ->]. by apply HF.
Qed.

(** The first half of [put] on a new key: allocation, insertion into the
    hash map and linking after [head]. *)
Lemma put_insert_spec this h ns k v :
  repr this h ns -> k ∉ ns.*2.*1 ->
  exists h',
    addNode this (nextblock h) (alloc (Node_ctor k v) h) = Some (tt, h') /\
    repr (with_cache (<[k := nextblock h]> (cache this)) this) h'
         ((nextblock h, (k, v)) :: ns).
Proof.
  intros R Hk. set (p := nextblock h). set (h1 := alloc (Node_ctor k v) h).
  pose proof (repr_nodup _ _ _ R) as Hnd.
  pose proof (repr_linked _ _ _ R) as Hl.
  assert (Hp : p ∉ head this :: ns.*1 ++ [tail this]).
  { intros Hin. eapply bounded_fresh; [apply (repr_bound _ _ _ R)|].
    by eapply repr_chain_allocated. }
  assert (Hext : forall {A} (g : Node -> A) x,
             x ∈ head this :: ns.*1 ++ [tail this] -> fld g h1 x = fld g h x).
  { intros A g x Hin. apply fld_alloc_ne. intros ->. by apply Hp. }
  assert (Hl1 : linked h1 (head this :: ns.*1 ++ [tail this])).
  { eapply linked_ext; [|done]. intros x Hin. by rewrite !Hext. }
  assert (exists x c, ns.*1 ++ [tail this] = x :: c) as (x & c & Hxc).
  { destruct (ns.*1); simpl; eauto. }
  rewrite Hxc in Hnd, Hl1, Hp.
  destruct (addNode_spec this h1 p x c) as (h2 & Hrun & Hl2 & Hsd).
  { by apply NoDup_cons. }
  { apply allocated_alloc. by left. }
  { done. }
  exists h2. split; [done|]. rewrite <- Hxc in Hnd, Hl2, Hp.
  destruct Hsd as [Hnb F]. split; simpl.
  - eapply NoDup_Permutation_proper; [apply perm_swap|]. by apply NoDup_cons.
  - done.
  - apply Forall_cons. split.
    + simpl. destruct (F p) as [-> ->]. unfold p, h1. by rewrite !fld_alloc_eq.
    + eapply fields_ext; [|apply (repr_fields _ _ _ R)].
      intros e He. destruct (F e.1) as [-> ->].
      rewrite !Hext; [done|..]; right; apply elem_of_app; left;
        by apply list_elem_of_fmap_2.
  - apply NoDup_cons. split; [done | apply (repr_keys _ _ _ R)].
  - by rewrite (repr_cache _ _ _ R).
  - eapply bounded_same_data; [by split|].
    apply bounded_alloc, (repr_bound _ _ _ R).
Qed.

(** The second half when the capacity is exceeded: unlink the node before
    [tail], erase its key, release it. *)
Lemma evict_spec this h ns e :
  repr this h (ns ++ [e]) ->
  exists h1,
    popTail this h = Some (e.1, h1) /\
    get_key e.1 h1 = Some (e.2.1, h1) /\
    delete_Node e.1 h1 = Some (tt, free e.1 h1) /\
    repr (with_cache (delete e.2.1 (cache this)) this) (free e.1 h1) ns.
Proof.
  intros R.
  pose proof (repr_nodup _ _ _ R) as Hnd.
  pose proof (repr_linked _ _ _ R) as Hl.
  pose proof (repr_fields _ _ _ R) as HF.
  pose proof (repr_keys _ _ _ R) as Hk.
  rewrite fmap_app, <- app_assoc in Hnd, Hl. simpl in Hnd, Hl.
  destruct (popTail_spec this h _ _ Hnd Hl) as (h1 & Hrun & Hl1 & Hsd).
  assert (Hea : allocated h e.1).
  { eapply repr_chain_allocated; [done|]. rewrite fmap_app. set_solver. }
  apply Forall_app in HF as [HF1 HF2].
  apply Forall_cons in HF2 as [[Hek Hev] _].
  assert (Hni : e.1 ∉ head this :: ns.*1 ++ [tail this]).
  { apply NoDup_cons in Hnd as [Hh Hnd]. apply NoDup_app in Hnd as (_ & Hd & Hnd).
    apply NoDup_cons in Hnd as [Ht _].
    intros [Heq|[Hin|Hin]%elem_of_app]%elem_of_cons.
    - apply Hh. rewrite <- Heq. set_solver.
    - apply (Hd _ Hin). by left.
    - apply Ht. done. }
  rewrite !fmap_app in Hk. simpl in Hk.
  apply NoDup_app in Hk as (Hk1 & Hkd & _).
  exists h1. split_and!.
  - done.
  - apply get_key_run. destruct Hsd as [_ F]. by destruct (F e.1) as [-> _].
  - apply modify_run_free. by apply (same_data_allocated h h1).
  - destruct Hsd as [Hnb F]. split; simpl.
    + apply NoDup_cons in Hnd as [Hh Hnd]. apply NoDup_cons. split.
      * set_solver.
      * apply NoDup_app in Hnd as (? & Hd & Hnd2).
        apply NoDup_cons in Hnd2 as [_ ?].
        apply NoDup_app. split_and!; [done | | done].
        intros x Hx Hx'. apply (Hd x Hx). by right.
    + eapply linked_ext; [|done]. intros x Hx.
      rewrite !fld_free_ne; [done|..]; intros ->; by apply Hni.
    + eapply fields_ext; [|done]. intros e' He'.
      assert (e'.1 <> e.1).
      { intros Heq. apply Hni. rewrite <- Heq. right. apply elem_of_app. left.
        by apply list_elem_of_fmap_2. }
      rewrite !fld_free_ne by done. apply F.
    + done.
    + rewrite (repr_cache _ _ _ R). apply index_of_snoc_delete.
      intros Hin. apply (Hkd _ Hin). by left.
    + apply bounded_free. eapply bounded_same_data; [by split|].
      apply (repr_bound _ _ _ R).
Qed.

Lemma put_new_spec this h ns k v :
  repr this h ns -> k ∉ ns.*2.*1 ->
  exists this' h' p,
    put this k v h = Some (this', h') /\
    capacity this' = capacity this /\
    repr this' h'
      (if bool_decide (to_size_t (capacity this) < Z.of_nat (S (length ns)))
       then removelast ((p, (k, v)) :: ns) else (p, (k, v)) :: ns).
Proof.
  intros R Hk.
  assert (Hc : cache this !! k = None).
  { rewrite (repr_cache _ _ _ R). by apply index_of_lookup_None. }
  destruct (put_insert_spec this h ns k v R Hk) as (h1 & Hrun1 & R1).
  assert (Hsz : size (<[k := nextblock h]> (cache this)) = S (length ns)).
  { rewrite map_size_insert_None by done. rewrite (repr_cache _ _ _ R).
    f_equal. apply index_of_size, (repr_keys _ _ _ R). }
  unfold put. rewrite Hc.
  erewrite bind_run by reflexivity. cbv beta zeta.
  erewrite bind_run by exact Hrun1.
  rewrite Hsz. case_bool_decide as Hcmp.
  - destruct (exists_last (l := (nextblock h, (k, v)) :: ns))
      as (ns' & e & Heq); [done|].
    rewrite Heq in R1.
    destruct (evict_spec _ _ _ _ R1) as (h2 & Hpop & Hkey & Hdel & R2).
    eexists _, _, (nextblock h). rewrite Heq, removelast_last.
    split; [|split; [|exact R2]]; [|reflexivity].
    change (popTail this) with
      (popTail (with_cache (<[k := nextblock h]> (cache this)) this)).
    erewrite bind_run by exact Hpop.
    erewrite bind_run by exact Hkey.
    erewrite bind_run by exact Hdel. reflexivity.
  - eexists _, _, (nextblock h).
    split_and!; [reflexivity | reflexivity | exact R1].
Qed.

End CppHeap.

(** ** From the heap to the recency list *)

Module CppRecency.
Import Cpp Recency CppHeap.

Lemma assoc_None k l : assoc k l = None <-> k ∉ l.*1.
Proof.
  induction l as [|[k' v] l IH]; simpl.
  - split; [|done]. intros _ Hin. by apply elem_of_nil in Hin.
  - rewrite not_elem_of_cons. case_decide; [naive_solver|].
    rewrite IH. naive_solver.
Qed.

Lemma assoc_Some k v l :
  assoc k l = Some v ->
  exists l1 l2,
    l = l1 ++ (k, v) :: l2 /\ (k ∉ l1.*1) /\ remove k l = l1 ++ l2.
Proof.
  induction l as [|[k' v'] l IH]; simpl; [done|].
  case_decide as Hk.
  - intros [= ->]. subst k'. exists [], l. split_and!; [done | | done].
    by intros ?%elem_of_nil.
  - intros (l1 & l2 & -> & Hni & ->)%IH.
    exists ((k', v') :: l1), l2. split_and!; [done | | done].
    csimpl. apply not_elem_of_cons. done.
Qed.

Lemma assoc_middle k v l1 l2 :
  k ∉ l1.*1 -> assoc k (l1 ++ (k, v) :: l2) = Some v.
Proof.
  induction l1 as [|[k' v'] l1 IH]; csimpl.
  - intros _. by rewrite decide_True.
  - intros [? ?]%not_elem_of_cons. rewrite decide_False by done. by apply IH.
Qed.

Lemma remove_middle k v l1 l2 :
  k ∉ l1.*1 -> remove k (l1 ++ (k, v) :: l2) = l1 ++ l2.
Proof.
  induction l1 as [|[k' v'] l1 IH]; csimpl.
  - intros _. by rewrite decide_True.
  - intros [? ?]%not_elem_of_cons. rewrite decide_False by done.
    f_equal. by apply IH.
Qed.

Lemma lru_get_miss k l : k ∉ l.*1 -> lru_get k l = (-1, l).
Proof. intros Hk%assoc_None. unfold lru_get. by rewrite Hk. Qed.

Lemma lru_get_hit k v l1 l2 :
  k ∉ l1.*1 -> lru_get k (l1 ++ (k, v) :: l2) = (v, (k, v) :: l1 ++ l2).
Proof.
  intros Hk. unfold lru_get, touch.
  by rewrite assoc_middle, remove_middle.
Qed.

Lemma lru_put_hit c k v0 v l1 l2 :
  k ∉ l1.*1 -> lru_put c k v (l1 ++ (k, v0) :: l2) = (k, v) :: l1 ++ l2.
Proof.
  intros Hk. unfold lru_put, touch.
  by rewrite assoc_middle, remove_middle.
Qed.

Lemma lru_put_new c k v l :
  k ∉ l.*1 ->
  lru_put c k v l =
  if bool_decide (to_size_t c < Z.of_nat (S (length l)))
  then removelast ((k, v) :: l) else (k, v) :: l.
Proof. intros Hk%assoc_None. unfold lru_put. by rewrite Hk. Qed.

Lemma keys_split k (l : list (Z * Z)) :
  k ∈ l.*1 -> exists l1 v l2, l = l1 ++ (k, v) :: l2 /\ (k ∉ l1.*1).
Proof.
  intros Hin. destruct (assoc k l) as [v|] eqn:E.
  - apply assoc_Some in E as (l1 & l2 & -> & Hni & _). by exists l1, v, l2.
  - by apply assoc_None in E.
Qed.

Lemma length_removelast_cons {A} (x : A) l :
  length (removelast (x :: l)) = length l.
Proof.
  revert x. induction l as [|y l IH]; intros x; [done|].
  change (removelast (x :: y :: l)) with (x :: removelast (y :: l)).
  rewrite !length_cons. f_equal. apply IH.
Qed.

Lemma to_size_t_id c : 0 <= c < SIZE_MODULUS -> to_size_t c = c.
Proof. intros. unfold to_size_t. by apply Z.mod_small. Qed.

(** The capacity bound on the recency list. *)
Lemma lru_call_length c o l :
  0 <= c < SIZE_MODULUS -> Z.of_nat (length l) <= c ->
  Z.of_nat (length (lru_call c o l).2) <= c.
Proof.
  intros Hc Hl. destruct o as [k|k v]; simpl.
  - unfold lru_get. destruct (assoc k l) as [v|] eqn:E; [|done].
    apply assoc_Some in E as (l1 & l2 & -> & _ & Hrm).
    unfold touch. rewrite Hrm. simpl.
    rewrite length_app in *. simpl in Hl. lia.
  - unfold lru_put. destruct (assoc k l) as [v0|] eqn:E.
    + apply assoc_Some in E as (l1 & l2 & -> & _ & Hrm).
      unfold touch. rewrite Hrm. simpl.
      rewrite length_app in *. simpl in Hl. lia.
    + rewrite to_size_t_id by done. case_bool_decide.
      * rewrite length_removelast_cons. lia.
      * simpl length. lia.
Qed.

Lemma lru_calls_length c os l :
  0 <= c < SIZE_MODULUS -> Z.of_nat (length l) <= c ->
  Z.of_nat (length (lru_calls c os l).2) <= c.
Proof.
  intros Hc. revert l. induction os as [|o os IH]; intros l Hl; [done|].
  cbn [lru_calls snd]. by apply IH, lru_call_length.
Qed.

Lemma holds_nodup s l : holds s l -> NoDup l.*1.
Proof. intros (ns & R & <-). apply (repr_keys _ _ _ R). Qed.

Lemma holds_dom s l : holds s l -> dom (cache s.1) = list_to_set l.*1.
Proof.
  intros (ns & R & <-). rewrite (repr_cache _ _ _ R). apply index_of_dom.
Qed.

Lemma holds_size s l : holds s l -> size (cache s.1) = length l.
Proof.
  intros (ns & R & <-). rewrite (repr_cache _ _ _ R), length_fmap.
  apply index_of_size, (repr_keys _ _ _ R).
Qed.

Lemma holds_lookup_None s l k :
  holds s l -> cache s.1 !! k = None <-> assoc k l = None.
Proof.
  intros (ns & R & <-). rewrite (repr_cache _ _ _ R), assoc_None.
  symmetry. apply index_of_lookup_None.
Qed.

Lemma entries_split (ns : list entry) l1 k v l2 :
  ns.*2 = l1 ++ (k, v) :: l2 ->
  exists n1 p n2, ns = n1 ++ (p, (k, v)) :: n2 /\ n1.*2 = l1 /\ n2.*2 = l2.
Proof.
  intros (n1 & n2' & -> & Hn2 & ->)%fmap_app_inv.
  symmetry in Hn2. apply fmap_cons_inv in Hn2 as ([p kv] & n2 & ? & -> & ->).
  simpl in *. subst kv. by exists n1, p, n2.
Qed.

Lemma removelast_entries (ns : list entry) p k v :
  (removelast ((p, (k, v)) :: ns)).*2 = removelast ((k, v) :: ns.*2).
Proof.
  revert p k v. induction ns as [|[p' [k' v']] ns IH]; intros p k v; [done|].
  change (removelast ((p, (k, v)) :: (p', (k', v')) :: ns))
    with ((p, (k, v)) :: removelast ((p', (k', v')) :: ns)).
  rewrite fmap_cons, IH. done.
Qed.

Lemma sim_get s l k :
  holds s l ->
  exists s', call (Get k) s = Some (Some (lru_get k l).1, s') /\
             holds s' (lru_get k l).2 /\ capacity s'.1 = capacity s.1.
Proof.
  intros H. destruct s as [this h]. unfold lru_get.
  destruct (assoc k l) as [v|] eqn:Ea.
  - apply assoc_Some in Ea as (l1 & l2 & -> & Hni & Hrm).
    destruct H as (ns & R & Hns). simpl in R.
    apply entries_split in Hns as (n1 & p & n2 & -> & <- & <-).
    destruct (get_hit_spec _ _ _ _ _ _ _ R) as (h' & Hrun & R').
    exists (this, h'). simpl. rewrite Hrun. split_and!; [done | | done].
    exists ((p, (k, v)) :: n1 ++ n2). split; [done|].
    unfold touch. rewrite Hrm. by rewrite fmap_cons, fmap_app.
  - exists (this, h). simpl. rewrite get_miss_spec; [done|].
    by apply (holds_lookup_None (this, h) l).
Qed.

Lemma sim_put s l k v :
  holds s l ->
  exists s', call (Put k v) s = Some (None, s') /\
             holds s' (lru_put (capacity s.1) k v l) /\
             capacity s'.1 = capacity s.1.
Proof.
  intros H. destruct s as [this h]. unfold lru_put.
  destruct (assoc k l) as [v0|] eqn:Ea.
  - apply assoc_Some in Ea as (l1 & l2 & -> & Hni & Hrm).
    destruct H as (ns & R & Hns). simpl in R.
    apply entries_split in Hns as (n1 & p & n2 & -> & <- & <-).
    destruct (put_hit_spec _ _ _ _ _ _ v _ R) as (h' & Hrun & R').
    exists (this, h'). simpl. rewrite Hrun. split_and!; [done | | done].
    exists ((p, (k, v)) :: n1 ++ n2). split; [done|].
    unfold touch. rewrite Hrm. by rewrite fmap_cons, fmap_app.
  - apply assoc_None in Ea.
    destruct H as (ns & R & <-). simpl in R.
    destruct (put_new_spec _ _ _ k v R Ea) as (this' & h' & p & Hrun & Hc & R').
    rewrite length_fmap. cbn [fst snd] in *.
    exists (this', h'). unfold call. cbn [fst snd]. rewrite Hrun.
    split_and!; [done | | done].
    eexists. split; [exact R'|].
    repeat case_bool_decide; try done; try apply removelast_entries.
Qed.

Lemma sim_call c o s l :
  holds s l -> capacity s.1 = c ->
  exists s', call o s = Some ((lru_call c o l).1, s') /\
             holds s' (lru_call c o l).2 /\ capacity s'.1 = c.
Proof.
  intros H <-. destruct o as [k|k v].
  - destruct (sim_get s l k H) as (s' & ? & ? & ?). by exists s'.
  - destruct (sim_put s l k v H) as (s' & ? & ? & ?). by exists s'.
Qed.

Lemma sim_calls c os s l :
  holds s l -> capacity s.1 = c ->
  exists s', calls os s = Some ((lru_calls c os l).1, s') /\
             holds s' (lru_calls c os l).2 /\ capacity s'.1 = c.
Proof.
  revert s l. induction os as [|o os IH]; intros s l H Hc.
  - by exists s.
  - destruct (sim_call c o s l H Hc) as (s1 & Hrun1 & H1 & Hc1).
    destruct (IH s1 _ H1 Hc1) as (s2 & Hrun2 & H2 & Hc2).
    exists s2. cbn [calls lru_calls fst snd]. by rewrite Hrun1, Hrun2.
Qed.

Lemma sim_ctor c :
  exists s, LRUCache_ctor c empty_heap = Some s /\
            holds s [] /\ capacity s.1 = c.
Proof.
  destruct (LRUCache_ctor_spec c) as (this & h & Hrun & R & Hc).
  exists (this, h). split_and!; [done | by exists [] | done].
Qed.

Lemma sim_session c os :
  exists s, session c os = Some ((lru_calls c os []).1, s) /\
            holds s (lru_calls c os []).2 /\ capacity s.1 = c.
Proof.
  destruct (sim_ctor c) as (s0 & Hrun0 & H0 & Hc0).
  destruct (sim_calls c os s0 [] H0 Hc0) as (s & Hrun & H & Hc).
  exists s. unfold session. by rewrite Hrun0.
Qed.

Lemma calls_snoc os o s0 rs s r s' :
  calls os s0 = Some (rs, s) -> call o s = Some (r, s') ->
  calls (os ++ [o]) s0 = Some (rs ++ [r], s').
Proof.
  revert s0 rs. induction os as [|o' os IH]; intros s0 rs; simpl.
  - intros [= <- <-] ->. done.
  - destruct (call o' s0) as [[r1 s1]|]; [|done].
    destruct (calls os s1) as [[rs1 s2]|] eqn:E; [|done].
    intros [= <- <-] Hc. by rewrite (IH _ _ E Hc).
Qed.

Lemma reachable_session c s :
  reachable c s <-> exists os rs, session c os = Some (rs, s).
Proof.
  split.
  - induction 1 as [s Hs | s o r s' _ (os & rs & Hos) Hcall].
    + exists [], []. unfold session. by rewrite Hs.
    + exists (os ++ [o]), (rs ++ [r]). unfold session in *.
      destruct (LRUCache_ctor c empty_heap) as [s0|]; [|done].
      by eapply calls_snoc.
  - intros (os & rs & Hos). unfold session in Hos.
    destruct (LRUCache_ctor c empty_heap) as [s0|] eqn:E0; [|done].
    assert (R0 : reachable c s0) by by constructor.
    clear E0. revert s0 rs R0 Hos.
    induction os as [|o os IH]; intros s0 rs R0; simpl.
    + by intros [= _ <-].
    + destruct (call o s0) as [[r1 s1]|] eqn:E1; [|done].
      destruct (calls os s1) as [[rs1 s2]|] eqn:E2; [|done].
      intros [= _ <-]. eapply IH; [|done]. by econstructor.
Qed.

(** Every reachable state holds the recency list that the same calls
    produce on the empty list. *)
Lemma reachable_holds c s :
  reachable c s ->
  exists os, holds s (lru_calls c os []).2 /\ capacity s.1 = c.
Proof.
  intros (os & rs & Hos)%reachable_session.
  destruct (sim_session c os) as (s' & Hrun & H & Hc).
  rewrite Hos in Hrun. injection Hrun as _ <-. by exists os.
Qed.

(** [display] prints the recency list. *)
Lemma linked_next_hd h a c tl :
  linked h (a :: c ++ [tl]) -> fld next h a = Some (List.hd tl (c ++ [tl])).
Proof. destruct c; simpl; by intros (? & _). Qed.

Lemma linked_tail h a c : linked h (a :: c) -> linked h c.
Proof. destruct c; [done|]. by intros (_ & _ & ?)%linked_cons. Qed.

Lemma walk_spec h tl (ns : list entry) : forall fuel,
  linked h (ns.*1 ++ [tl]) ->
  Forall (fun e : entry =>
            fld key h e.1 = Some e.2.1 /\ fld value h e.1 = Some e.2.2) ns ->
  tl ∉ ns.*1 -> (length ns < fuel)%nat ->
  walk fuel tl (List.hd tl (ns.*1 ++ [tl])) h = Some (ns.*2, h).
Proof.
  induction ns as [|[p [k v]] ns IH]; intros fuel Hl HF Htl Hfuel.
  - destruct fuel as [|fuel]; [simpl in Hfuel; lia|].
    simpl. by rewrite bool_decide_true.
  - destruct fuel as [|fuel]; [simpl in Hfuel; lia|].
    rewrite fmap_cons in Hl, Htl. cbn [fst] in Hl, Htl.
    apply not_elem_of_cons in Htl as [Hne Htl].
    apply Forall_cons in HF as [[Hk Hv] HF]. simpl in Hk, Hv.
    rewrite <- app_comm_cons in Hl.
    pose proof (linked_next_hd _ _ _ _ Hl) as Hn.
    apply linked_tail in Hl.
    unfold fld in Hk, Hv, Hn.
    destruct (cells h !! p) as [n|] eqn:En; [|done].
    simpl in Hk, Hv, Hn. simplify_eq.
    cbn [walk fmap list_fmap app List.hd fst].
    rewrite bool_decide_false by congruence.
    erewrite bind_run by by apply load_run.
    erewrite bind_run; [reflexivity|].
    rewrite Hn. eapply IH; [done.. | simpl in Hfuel; lia].
Qed.

Lemma chain_size h (c : list N) :
  NoDup c -> (forall p, p ∈ c -> allocated h p) ->
  (length c <= size (cells h))%nat.
Proof.
  intros Hnd Ha.
  rewrite <- (size_list_to_set (C := gset N) c) by done.
  rewrite <- size_dom. apply subseteq_size.
  intros p Hp%elem_of_list_to_set. apply elem_of_dom. by apply Ha.
Qed.

Lemma display_spec this h ns :
  repr this h ns -> display this h = Some (ns.*2, h).
Proof.
  intros R.
  pose proof (repr_nodup _ _ _ R) as Hnd.
  pose proof (repr_linked _ _ _ R) as Hl.
  assert (Hsz : (length (head this :: ns.*1 ++ [tail this])
                 <= size (cells h))%nat).
  { apply chain_size; [done|]. intros p Hp. by eapply repr_chain_allocated. }
  rewrite length_cons, length_app, length_fmap in Hsz.
  pose proof (linked_next_hd _ _ _ _ Hl) as Hn.
  unfold display. erewrite bind_run by by apply get_next_run.
  eapply walk_spec;
    [by eapply linked_tail | apply (repr_fields _ _ _ R) |
     | unfold entry in *; simpl in Hsz; lia].
  apply NoDup_cons in Hnd as [_ Hnd].
  apply NoDup_app in Hnd as (_ & Hd & _).
  intros Hin. apply (Hd _ Hin). by left.
Qed.

Lemma holds_display s l : holds s l -> display s.1 s.2 = Some (l, s.2).
Proof. intros (ns & R & <-). by apply display_spec. Qed.

Lemma lru_calls_app c os1 os2 l :
  lru_calls c (os1 ++ os2) l =
  ((lru_calls c os1 l).1 ++ (lru_calls c os2 (lru_calls c os1 l).2).1,
   (lru_calls c os2 (lru_calls c os1 l).2).2).
Proof.
  revert l. induction os1 as [|o os1 IH]; intros l.
  - simpl. by destruct (lru_calls c os2 l).
  - cbn [app lru_calls fst snd]. by rewrite IH.
Qed.

(** Puts of new keys while there is room, then gets of resident keys. *)
Lemma lru_calls_puts c (kvs : list (Z * Z)) : forall l,
  NoDup kvs.*1 -> (forall k, k ∈ kvs.*1 -> k ∉ l.*1) ->
  Z.of_nat (length l + length kvs) <= to_size_t c ->
  lru_calls c (puts kvs) l
  = (replicate (length kvs) None, reverse kvs ++ l).
Proof.
  induction kvs as [|[k v] kvs IH]; intros l Hnd Hd Hlen; [done|].
  rewrite fmap_cons in Hnd, Hd. simpl in Hnd, Hd.
  apply NoDup_cons in Hnd as [Hk Hnd].
  change (puts ((k, v) :: kvs)) with (Put k v :: puts kvs).
  cbn [lru_calls lru_call fst snd].
  rewrite lru_put_new by (apply Hd; by left).
  rewrite bool_decide_false by (simpl in Hlen; lia).
  rewrite IH; [| done | | simpl in *; lia].
  - simpl. by rewrite reverse_cons, <- app_assoc.
  - intros k' Hk'. rewrite fmap_cons. simpl.
    apply not_elem_of_cons. split; [by intros -> | apply Hd; by right].
Qed.

Lemma lru_calls_gets c (ks : list Z) : forall l,
  NoDup l.*1 -> (forall k, k ∈ ks -> k ∈ l.*1) ->
  exists rs l',
    lru_calls c (gets ks) l = (rs, l') /\ l' ≡ₚ l /\
    Forall2 (fun k r => exists v, (k, v) ∈ l /\ r = Some v) ks rs.
Proof.
  induction ks as [|k ks IH]; intros l Hnd Hin.
  - exists [], l. split_and!; [done | done | constructor].
  - destruct (keys_split k l) as (l1 & v & l2 & -> & Hk1);
      [apply Hin; by left|].
    assert (Hp : (k, v) :: l1 ++ l2 ≡ₚ l1 ++ (k, v) :: l2)
      by apply Permutation_middle.
    destruct (IH ((k, v) :: l1 ++ l2)) as (rs & l' & Hrun & Hp' & HF).
    { by rewrite Hp. }
    { intros k' Hk'. rewrite Hp. apply Hin. by right. }
    exists (Some v :: rs), l'.
    change (gets (k :: ks)) with (Get (V := Z) k :: gets ks).
    cbn [lru_calls lru_call fst snd].
    rewrite lru_get_hit by done. cbn [fst snd].
    rewrite Hrun. split_and!; [done | by rewrite Hp' |].
    constructor.
    + exists v. split; [|done]. set_solver.
    + eapply Forall2_impl; [exact HF|].
      intros k' r (v' & Hv' & ->). exists v'. split; [|done]. by rewrite <- Hp.
Qed.

Lemma ctor_init c : LRUCache_ctor c empty_heap = Some (init c).
Proof. reflexivity. Qed.

Lemma session_after c os :
  session c os = Some ((lru_calls c os []).1, after c os).
Proof.
  destruct (sim_session c os) as (s & Hrun & _). unfold after. by rewrite Hrun.
Qed.

Lemma after_holds c os :
  holds (after c os) (lru_calls c os []).2 /\ capacity (after c os).1 = c.
Proof.
  destruct (sim_session c os) as (s & Hrun & H & Hc).
  unfold after. by rewrite Hrun.
Qed.

Lemma after_reachable c os : reachable c (after c os).
Proof. apply reachable_session. eexists _, _. apply session_after. Qed.

(** Sessions never fault. *)
Lemma session_total c os : exists rs s, session c os = Some (rs, s).
Proof. eexists _, _. apply session_after. Qed.

Lemma call_total c s o :
  reachable c s -> exists r s', call o s = Some (r, s').
Proof.
  intros (os & H & Hc)%reachable_holds.
  destruct (sim_call c o s _ H Hc) as (s' & Hrun & _). eauto.
Qed.

(** The capacity bound, for capacities that are not negative. *)
Lemma reachable_count c s :
  0 <= c -> int_range c -> reachable c s -> Z.of_nat (count s) <= c.
Proof.
  intros H0 Hi (os & H & _)%reachable_holds.
  unfold count. rewrite (holds_size _ _ H).
  apply lru_calls_length; [|simpl; lia].
  destruct Hi as [_ Hi]. unfold INT_MAX, SIZE_MODULUS in *. lia.
Qed.

End CppRecency.

(** ** The TypeScript Map *)

Module TSFacts.
Import TS.

Section JSMap.
Context {K V : Type} `{EqDecision K}.
Implicit Types (m : list (K * V)) (k : K) (v : V) (this : LRUCache K V).

Lemma map_get_None k m : map_get k m = None <-> k ∉ m.*1.
Proof.
  induction m as [|[k' v] m IH]; simpl.
  - split; [|done]. intros _ Hin. by apply elem_of_nil in Hin.
  - rewrite not_elem_of_cons. case_decide; [naive_solver|].
    rewrite IH. naive_solver.
Qed.

Lemma map_has_false k m : map_has k m = false <-> k ∉ m.*1.
Proof.
  rewrite <- map_get_None. unfold map_has.
  destruct (map_get k m); naive_solver.
Qed.

Lemma map_has_true k m : map_has k m = true <-> k ∈ m.*1.
Proof.
  destruct (map_has k m) eqn:E.
  - split; [|done]. intros _. destruct (decide (k ∈ m.*1)); [done|].
    apply map_has_false in n. congruence.
  - apply map_has_false in E. naive_solver.
Qed.

Lemma map_get_middle k v m1 m2 :
  k ∉ m1.*1 -> map_get k (m1 ++ (k, v) :: m2) = Some v.
Proof.
  induction m1 as [|[k' v'] m1 IH]; csimpl.
  - intros _. by rewrite decide_True.
  - intros [? ?]%not_elem_of_cons. rewrite decide_False by done. by apply IH.
Qed.

Lemma map_delete_middle k v m1 m2 :
  k ∉ m1.*1 -> map_delete k (m1 ++ (k, v) :: m2) = m1 ++ m2.
Proof.
  induction m1 as [|[k' v'] m1 IH]; csimpl.
  - intros _. by rewrite decide_True.
  - intros [? ?]%not_elem_of_cons. rewrite decide_False by done.
    f_equal. by apply IH.
Qed.

Lemma map_set_new k v m : k ∉ m.*1 -> map_set k v m = m ++ [(k, v)].
Proof.
  induction m as [|[k' v'] m IH]; csimpl; [done|].
  intros [? ?]%not_elem_of_cons. rewrite decide_False by done.
  f_equal. by apply IH.
Qed.

Lemma map_keys_split k m :
  k ∈ m.*1 -> exists m1 v m2, m = m1 ++ (k, v) :: m2 /\ (k ∉ m1.*1).
Proof.
  induction m as [|[k' v'] m IH]; csimpl.
  - by intros ?%elem_of_nil.
  - destruct (decide (k' = k)) as [->|Hne].
    + intros _. exists [], v', m. split; [done|]. by intros ?%elem_of_nil.
    + intros [?|Hin]%elem_of_cons; [done|].
      destruct (IH Hin) as (m1 & v & m2 & -> & Hni).
      exists ((k', v') :: m1), v, m2. split; [done|].
      csimpl. by apply not_elem_of_cons.
Qed.

(** How [get] and [put] act on a map with pairwise distinct keys. *)
Lemma get_miss this k : k ∉ keys this -> get this k = (None, this).
Proof. intros Hk%map_has_false. unfold get. by rewrite Hk. Qed.

Lemma get_hit this k v m1 m2 :
  cache this = m1 ++ (k, v) :: m2 -> NoDup (keys this) ->
  get this k = (Some v, with_cache (m1 ++ m2 ++ [(k, v)]) this).
Proof.
  unfold keys. intros E Hnd. rewrite E in Hnd.
  rewrite fmap_app, fmap_cons in Hnd.
  apply NoDup_app in Hnd as (_ & Hd & [Hk2 _]%NoDup_cons).
  assert (Hk1 : k ∉ m1.*1) by (intros Hin; apply (Hd _ Hin); by left).
  unfold get. rewrite E.
  assert (Hh : map_has k (m1 ++ (k, v) :: m2) = true).
  { apply map_has_true. rewrite fmap_app. set_solver. }
  rewrite Hh. simpl. rewrite map_get_middle, map_delete_middle by done.
  rewrite map_set_new, <- app_assoc; [done|].
  rewrite fmap_app. by intros [?|?]%elem_of_app.
Qed.

Lemma put_hit this k v0 v m1 m2 :
  cache this = m1 ++ (k, v0) :: m2 -> NoDup (keys this) ->
  put this k v = with_cache (m1 ++ m2 ++ [(k, v)]) this.
Proof.
  unfold keys. intros E Hnd. rewrite E in Hnd.
  rewrite fmap_app, fmap_cons in Hnd.
  apply NoDup_app in Hnd as (_ & Hd & [Hk2 _]%NoDup_cons).
  assert (Hk1 : k ∉ m1.*1) by (intros Hin; apply (Hd _ Hin); by left).
  unfold put. rewrite E.
  assert (Hh : map_has k (m1 ++ (k, v0) :: m2) = true).
  { apply map_has_true. rewrite fmap_app. set_solver. }
  rewrite Hh. rewrite map_delete_middle by done.
  rewrite map_set_new, <- app_assoc; [done|].
  rewrite fmap_app. by intros [?|?]%elem_of_app.
Qed.

Lemma put_new_room this k v :
  k ∉ keys this -> Z.of_nat (map_size (cache this)) < capacity this ->
  put this k v = with_cache (cache this ++ [(k, v)]) this.
Proof.
  intros Hk Hc. unfold put.
  rewrite (proj2 (map_has_false _ _) Hk).
  rewrite bool_decide_false by lia. by rewrite map_set_new.
Qed.

Lemma put_new_full this k v :
  k ∉ keys this -> capacity this <= Z.of_nat (map_size (cache this)) ->
  put this k v = with_cache (List.tl (cache this) ++ [(k, v)]) this.
Proof.
  intros Hk Hc. unfold put.
  rewrite (proj2 (map_has_false _ _) Hk).
  rewrite bool_decide_true by lia. unfold keys in Hk.
  destruct (cache this) as [|[k0 v0] m]; [reflexivity|].
  simpl. rewrite decide_True by done.
  rewrite map_set_new; [done|]. csimpl in Hk.
  by apply not_elem_of_cons in Hk as [_ ?].
Qed.

Lemma get_cases this k :
  NoDup (keys this) ->
  ((k ∉ keys this) /\ get this k = (None, this)) \/
  (exists m1 v m2,
      cache this = m1 ++ (k, v) :: m2 /\
      get this k = (Some v, with_cache (m1 ++ m2 ++ [(k, v)]) this)).
Proof.
  intros Hnd. destruct (decide (k ∈ keys this)) as [Hin|Hni].
  - right. destruct (map_keys_split _ _ Hin) as (m1 & v & m2 & E & _).
    exists m1, v, m2. split; [done|]. by apply get_hit.
  - left. split; [done|]. by apply get_miss.
Qed.

Lemma put_cases this k v :
  NoDup (keys this) ->
  (exists m1 v0 m2,
      cache this = m1 ++ (k, v0) :: m2 /\
      put this k v = with_cache (m1 ++ m2 ++ [(k, v)]) this) \/
  ((k ∉ keys this) /\ Z.of_nat (map_size (cache this)) < capacity this /\
   put this k v = with_cache (cache this ++ [(k, v)]) this) \/
  ((k ∉ keys this) /\ capacity this <= Z.of_nat (map_size (cache this)) /\
   put this k v = with_cache (List.tl (cache this) ++ [(k, v)]) this).
Proof.
  intros Hnd. destruct (decide (k ∈ keys this)) as [Hin|Hni].
  - left. destruct (map_keys_split _ _ Hin) as (m1 & v0 & m2 & E & _).
    exists m1, v0, m2. split; [done|]. by eapply put_hit.
  - right.
    destruct (decide (Z.of_nat (map_size (cache this)) < capacity this)).
    + left. split_and!; [done..|]. by apply put_new_room.
    + right. split_and!; [done|lia|]. apply put_new_full; [done|lia].
Qed.

Lemma moved_keys_perm k v v' m1 m2 :
  (m1 ++ m2 ++ [(k, v')]).*1 ≡ₚ (m1 ++ (k, v) :: m2).*1.
Proof.
  rewrite !fmap_app, fmap_cons. simpl.
  rewrite <- (Permutation_middle m1.*1). rewrite app_assoc.
  by rewrite <- Permutation_cons_append.
Qed.

Lemma NoDup_tl_snoc (l : list K) k : NoDup l -> k ∉ l -> NoDup (List.tl l ++ [k]).
Proof.
  intros Hnd Hk. apply NoDup_app. split_and!.
  - destruct l; [done|]. by apply NoDup_cons in Hnd as [_ ?].
  - intros x Hx ->%list_elem_of_singleton. apply Hk.
    destruct l; [done|]. by right.
  - apply NoDup_singleton.
Qed.

Lemma get_nodup this k : NoDup (keys this) -> NoDup (keys (get this k).2).
Proof.
  intros Hnd.
  destruct (get_cases this k Hnd) as [[_ ->]|(m1 & v & m2 & E & ->)]; [done|].
  unfold keys in *. simpl. rewrite E in Hnd. by rewrite moved_keys_perm.
Qed.

Lemma put_nodup this k v : NoDup (keys this) -> NoDup (keys (put this k v)).
Proof.
  intros Hnd.
  destruct (put_cases this k v Hnd)
    as [(m1 & v0 & m2 & E & ->)|[(Hk & _ & ->)|(Hk & _ & ->)]];
    unfold keys in *; simpl.
  - rewrite E in Hnd. by rewrite moved_keys_perm.
  - rewrite fmap_app. apply NoDup_app. split_and!; [done | | apply NoDup_singleton].
    intros x Hx ->%list_elem_of_singleton. done.
  - rewrite fmap_app. simpl.
    replace ((List.tl (cache this)).*1) with (List.tl (cache this).*1)
      by by destruct (cache this).
    by apply NoDup_tl_snoc.
Qed.

Lemma call_nodup this o : NoDup (keys this) -> NoDup (keys (call o this).2).
Proof.
  intros Hnd. destruct o as [k|k v]; simpl.
  - pose proof (get_nodup this k Hnd). by destruct (get this k).
  - by apply put_nodup.
Qed.

Lemma call_capacity this o : capacity (call o this).2 = capacity this.
Proof.
  destruct o as [k|k v]; simpl; [|done].
  unfold get. destruct (negb _); [done|]. by destruct (map_get _ _).
Qed.

Lemma reachable_nodup c this : reachable c this -> NoDup (keys this).
Proof.
  induction 1; [apply NoDup_nil_2 | by apply call_nodup].
Qed.

Lemma reachable_capacity c this : reachable c this -> capacity this = c.
Proof. induction 1; [done | by rewrite call_capacity]. Qed.

(** With a capacity of at least one the map never outgrows it. *)
Lemma call_size this o :
  1 <= capacity this -> NoDup (keys this) ->
  Z.of_nat (map_size (cache this)) <= capacity this ->
  Z.of_nat (map_size (cache (call o this).2)) <= capacity this.
Proof.
  intros Hc Hnd Hsz. unfold map_size in *.
  destruct o as [k|k v]; unfold call.
  - destruct (get_cases this k Hnd) as [[_ ->]|(m1 & v & m2 & E & ->)];
      [done|].
    simpl. rewrite E in Hsz. rewrite !length_app in *. simpl in *. lia.
  - destruct (put_cases this k v Hnd)
      as [(m1 & v0 & m2 & E & ->)|[(Hk & Hlt & ->)|(Hk & _ & ->)]]; simpl.
    + rewrite E in Hsz. rewrite !length_app in *. simpl in *. lia.
    + unfold map_size in Hlt. rewrite length_app. simpl. lia.
    + rewrite length_app. simpl.
      destruct (cache this); simpl in *; lia.
Qed.

Lemma reachable_size c this :
  1 <= c -> reachable c this -> Z.of_nat (map_size (cache this)) <= c.
Proof.
  intros Hc. induction 1 as [|this o Hr IH]; [simpl; lia|].
  pose proof (reachable_capacity _ _ Hr) as Hcap.
  rewrite <- Hcap in *. apply call_size; [done | | done].
  by eapply reachable_nodup.
Qed.

Lemma calls_app (os1 os2 : list (op K V)) this :
  calls (os1 ++ os2) this =
  ((calls os1 this).1 ++ (calls os2 (calls os1 this).2).1,
   (calls os2 (calls os1 this).2).2).
Proof.
  revert this. induction os1 as [|o os1 IH]; intros this.
  - simpl. by destruct (calls os2 this).
  - cbn [app calls]. destruct (call o this) as [r this1].
    rewrite IH. by destruct (calls os1 this1), (calls os2 _).
Qed.

Lemma calls_puts (kvs : list (K * V)) : forall this,
  NoDup kvs.*1 -> (forall k, k ∈ kvs.*1 -> k ∉ keys this) ->
  Z.of_nat (length (cache this) + length kvs) <= capacity this ->
  calls (puts kvs) this
  = (replicate (length kvs) None, with_cache (cache this ++ kvs) this).
Proof.
  induction kvs as [|[k v] kvs IH]; intros this Hnd Hd Hlen.
  - simpl. rewrite app_nil_r. by destruct this.
  - rewrite fmap_cons in Hnd, Hd. simpl in Hnd, Hd.
    apply NoDup_cons in Hnd as [Hk Hnd].
    change (puts ((k, v) :: kvs)) with (Put k v :: puts kvs).
    cbn [calls call].
    rewrite put_new_room; [|apply Hd; by left|unfold map_size; simpl in *; lia].
    rewrite IH; [| done | |].
    + cbn [cache with_cache capacity length replicate].
      by rewrite <- app_assoc.
    + intros k' Hk'. unfold keys. cbn [cache with_cache].
      rewrite fmap_app. intros [Hin|Hin]%elem_of_app.
      * by apply (Hd k'); [right|].
      * apply list_elem_of_singleton in Hin. simpl in Hin. by subst.
    + cbn [cache with_cache capacity]. rewrite length_app. simpl in *. lia.
Qed.

Lemma calls_gets (ks : list K) : forall this,
  NoDup (keys this) -> (forall k, k ∈ ks -> k ∈ keys this) ->
  exists rs this',
    calls (gets ks) this = (rs, this') /\ cache this' ≡ₚ cache this /\
    Forall2 (fun k r => exists v, (k, v) ∈ cache this /\ r = Some (Some v))
            ks rs.
Proof.
  induction ks as [|k ks IH]; intros this Hnd Hin.
  - exists [], this. split_and!; [done | done | constructor].
  - destruct (map_keys_split k (cache this)) as (m1 & v & m2 & E & Hk1);
      [apply Hin; by left|].
    assert (Hp : m1 ++ m2 ++ [(k, v)] ≡ₚ cache this).
    { rewrite E, app_assoc. symmetry.
      etransitivity; [symmetry; apply Permutation_middle|].
      apply Permutation_cons_append. }
    destruct (IH (with_cache (m1 ++ m2 ++ [(k, v)]) this))
      as (rs & this' & Hrun & Hp' & HF).
    { unfold keys. cbn [cache with_cache]. by rewrite Hp. }
    { intros k' Hk'. unfold keys. cbn [cache with_cache]. rewrite Hp.
      apply Hin. by right. }
    exists (Some (Some v) :: rs), this'.
    change (gets (k :: ks)) with (Get (V := V) k :: gets ks).
    cbn [calls call].
    rewrite (get_hit this k v m1 m2 E Hnd).
    rewrite Hrun. split_and!; [done | by rewrite Hp', <- Hp |].
    constructor.
    + exists v. split; [|done]. rewrite E. set_solver.
    + eapply Forall2_impl; [exact HF|].
      intros k' r (v' & Hv' & ->). exists v'. split; [|done].
      cbn [cache with_cache] in Hv'. by rewrite <- Hp.
Qed.

Lemma calls_reachable c os this :
  reachable c this -> reachable c (calls os this).2.
Proof.
  revert this. induction os as [|o os IH]; intros this Hr; [done|].
  simpl. pose proof (reach_call c this o Hr) as Hr1.
  destruct (call o this) as [r this1]. specialize (IH this1 Hr1).
  by destruct (calls os this1).
Qed.

Lemma session_reachable c (os : list (op K V)) :
  reachable c (session c os).2.
Proof. apply calls_reachable. constructor. Qed.
End JSMap.

End TSFacts.

(** ** The TypeScript map is the recency list read backwards *)

Module Equiv.
Import Recency CppRecency TSFacts.

Lemma reverse_keys_notin (k : Z) (m : list (Z * Z)) :
  k ∉ m.*1 -> k ∉ (reverse m).*1.
Proof. rewrite fmap_reverse. by rewrite elem_of_reverse. Qed.

Lemma middle_nodup (k v : Z) (m1 m2 : list (Z * Z)) :
  NoDup (m1 ++ (k, v) :: m2).*1 -> (k ∉ m1.*1) /\ (k ∉ m2.*1).
Proof.
  rewrite fmap_app, fmap_cons. simpl.
  intros (_ & Hd & [Hk _]%NoDup_cons)%NoDup_app. split; [|done].
  intros Hin. apply (Hd _ Hin). by left.
Qed.

Lemma reverse_middle (x : Z * Z) m1 m2 :
  reverse (m1 ++ x :: m2) = reverse m2 ++ x :: reverse m1.
Proof. by rewrite reverse_app, reverse_cons, <- app_assoc. Qed.

Lemma reverse_moved (x : Z * Z) m1 m2 :
  reverse (m1 ++ m2 ++ [x]) = x :: reverse m2 ++ reverse m1.
Proof. by rewrite reverse_app, reverse_snoc. Qed.

Lemma lru_ts_get (t : TS.LRUCache Z Z) k :
  NoDup (TS.keys t) ->
  same_result (Some (lru_get k (reverse (TS.cache t))).1)
              (Some (TS.get t k).1) /\
  (lru_get k (reverse (TS.cache t))).2 = reverse (TS.cache (TS.get t k).2).
Proof.
  intros Hnd.
  destruct (get_cases t k Hnd) as [[Hk ->]|(m1 & v & m2 & E & ->)].
  - by rewrite lru_get_miss by by apply reverse_keys_notin.
  - unfold TS.keys in Hnd. rewrite E in *.
    apply middle_nodup in Hnd as [_ Hk2].
    rewrite reverse_middle, lru_get_hit by by apply reverse_keys_notin.
    simpl. by rewrite reverse_moved.
Qed.

Lemma lru_ts_put (t : TS.LRUCache Z Z) k v :
  1 <= TS.capacity t < SIZE_MODULUS ->
  NoDup (TS.keys t) ->
  Z.of_nat (TS.map_size (TS.cache t)) <= TS.capacity t ->
  lru_put (TS.capacity t) k v (reverse (TS.cache t))
  = reverse (TS.cache (TS.put t k v)).
Proof.
  intros Hc Hnd Hsz.
  destruct (put_cases t k v Hnd)
    as [(m1 & v0 & m2 & E & ->)|[(Hk & Hlt & ->)|(Hk & Hge & ->)]].
  - unfold TS.keys in Hnd. rewrite E in *.
    apply middle_nodup in Hnd as [_ Hk2].
    rewrite reverse_middle, lru_put_hit by by apply reverse_keys_notin.
    simpl. by rewrite reverse_moved.
  - rewrite lru_put_new by by apply reverse_keys_notin.
    rewrite to_size_t_id by lia. rewrite length_reverse.
    unfold TS.map_size in Hlt. rewrite bool_decide_false by lia.
    simpl. by rewrite reverse_snoc.
  - rewrite lru_put_new by by apply reverse_keys_notin.
    rewrite to_size_t_id by lia. rewrite length_reverse.
    unfold TS.map_size in *. rewrite bool_decide_true by lia.
    destruct (TS.cache t) as [|x m]; [simpl in *; lia|].
    cbn [TS.cache TS.with_cache List.tl]. rewrite reverse_snoc, reverse_cons.
    change ((k, v) :: reverse m ++ [x]) with ([(k, v)] ++ reverse m ++ [x]).
    rewrite removelast_app by by destruct (reverse m).
    by rewrite removelast_last.
Qed.

Lemma lru_ts_call c o (t : TS.LRUCache Z Z) :
  1 <= c < SIZE_MODULUS -> TS.reachable c t ->
  same_result (lru_call c o (reverse (TS.cache t))).1 (TS.call o t).1 /\
  (lru_call c o (reverse (TS.cache t))).2 = reverse (TS.cache (TS.call o t).2).
Proof.
  intros Hc Hr.
  pose proof (reachable_nodup _ _ Hr) as Hnd.
  pose proof (reachable_capacity _ _ Hr) as Hcap.
  pose proof (reachable_size _ _ (proj1 Hc) Hr) as Hsz.
  destruct o as [k|k v]; unfold lru_call, TS.call.
  - destruct (lru_ts_get t k Hnd) as [Hres Hst].
    destruct (TS.get t k) as [r t']. done.
  - split; [done|]. rewrite <- Hcap. apply lru_ts_put; [lia | done | lia].
Qed.

Lemma lru_ts_calls c os (t : TS.LRUCache Z Z) :
  1 <= c < SIZE_MODULUS -> TS.reachable c t ->
  Forall2 same_result (lru_calls c os (reverse (TS.cache t))).1
                      (TS.calls os t).1 /\
  (lru_calls c os (reverse (TS.cache t))).2
  = reverse (TS.cache (TS.calls os t).2).
Proof.
  intros Hc. revert t. induction os as [|o os IH]; intros t Hr.
  - split; [constructor | done].
  - destruct (lru_ts_call c o t Hc Hr) as [Hres Hst].
    pose proof (TS.reach_call c t o Hr) as Hr1.
    cbn [lru_calls TS.calls fst snd]. rewrite Hst.
    destruct (TS.call o t) as [r t1]. cbn [fst snd] in *.
    destruct (IH t1 Hr1) as [Hrs Hfin].
    destruct (TS.calls os t1) as [rs t2]. cbn [fst snd] in *.
    split; [by constructor | done].
Qed.

Lemma keys_set_perm (l k : list Z) :
  l ≡ₚ k -> list_to_set l =@{gset Z} list_to_set k.
Proof.
  intros Hp. apply set_eq. intros x.
  rewrite !elem_of_list_to_set. by rewrite Hp.
Qed.

Lemma residents_holds s l :
  holds s l -> Cpp.residents s = list_to_set l.*1.
Proof. apply holds_dom. Qed.

Lemma count_holds s l : holds s l -> Cpp.count s = length l.
Proof. apply holds_size. Qed.

Lemma resident_holds s l k : holds s l -> k ∈ Cpp.residents s <-> k ∈ l.*1.
Proof. intros H. by rewrite (residents_holds _ _ H), elem_of_list_to_set. Qed.

End Equiv.

(** * The specification's claims *)

Section Claims.
Import Recency CppHeap CppRecency TSFacts Equiv.

(** C3. On a cache of capacity 2 the sequence put(1,1), put(2,2), get(1),
    put(3,3), get(2), put(4,4), get(1), get(3), get(4) returns 1 for the
    first get(1); put(3,3) evicts key 2, not key 1, and leaves the resident
    set {1, 3}; get(2) then misses; put(4,4) evicts key 1; get(1) misses,
    get(3) returns 3 and get(4) returns 4.  The C++ class (whose [main] is
    this sequence) and the TypeScript class agree on it. *)
Theorem C3_scenario :
  Cpp.observe 2 (take 3 scenario) = Some ([None; None; Some 1], {[1; 2]}) /\
  Cpp.observe 2 (take 4 scenario)
    = Some ([None; None; Some 1; None], {[1; 3]}) /\
  Cpp.observe 2 (take 5 scenario)
    = Some ([None; None; Some 1; None; Some (-1)], {[1; 3]}) /\
  Cpp.observe 2 (take 6 scenario)
    = Some ([None; None; Some 1; None; Some (-1); None], {[3; 4]}) /\
  Cpp.observe 2 scenario
    = Some ([None; None; Some 1; None; Some (-1); None;
             Some (-1); Some 3; Some 4], {[3; 4]}) /\
  TS.keys (TS.session 2 (take 3 scenario)).2 = [2; 1] /\
  TS.keys (TS.session 2 (take 4 scenario)).2 = [1; 3] /\
  TS.keys (TS.session 2 (take 6 scenario)).2 = [3; 4] /\
  (TS.session 2 scenario).1
    = [None; None; Some (Some 1); None; Some None; None;
       Some None; Some (Some 3); Some (Some 4)].
Proof. repeat split; vm_compute; reflexivity. Qed.

(** Results and maps of the TypeScript session match the calls one to one:
    every call returns. *)
Lemma ts_calls_length {K V} `{EqDecision K} (os : list (op K V)) t :
  length (TS.calls os t).1 = length os.
Proof.
  revert t. induction os as [|o os IH]; intros t; [done|].
  simpl. destruct (TS.call o t) as [r t1]. specialize (IH t1).
  destruct (TS.calls os t1). simpl in *. by rewrite IH.
Qed.

(** C4, as the code has it.  Neither constructor checks its argument:
    construction succeeds for every integer capacity, negative ones
    included, and after it every sequence of get and put runs to the end
    without a fault, in the C++ class and in the TypeScript class alike.
    No operation raises an error. *)
Theorem C4_nothing_fails (c : Z) (os : list (op Z Z)) :
  (exists s, Cpp.LRUCache_ctor c Cpp.empty_heap = Some s) /\
  (exists rs s, Cpp.session c os = Some (rs, s) /\ length rs = length os) /\
  length (TS.session c os).1 = length os.
Proof.
  split_and!.
  - exists (Cpp.init c). apply ctor_init.
  - destruct (session_total c os) as (rs & s & Hrun).
    exists rs, s. split; [done|].
    unfold Cpp.session in Hrun. rewrite ctor_init in Hrun.
    revert rs Hrun. generalize (Cpp.init c).
    induction os as [|o os IH]; intros s0 rs; simpl.
    + by intros [= <- _].
    + destruct (Cpp.call o s0) as [[r s1]|]; [|done].
      destruct (Cpp.calls os s1) as [[rs1 s2]|] eqn:E; [|done].
      intros [= <- <-]. simpl. f_equal. by eapply IH.
  - apply ts_calls_length.
Qed.

(** C4 as stated fails: the C++ constructor accepts the capacity -1 and the
    cache it builds is usable ([put] then [get] returns the value), and so
    does the TypeScript constructor. *)
Lemma C4_negative_capacity_is_accepted :
  Cpp.LRUCache_ctor (-1) Cpp.empty_heap = Some (Cpp.init (-1)) /\
  Cpp.observe (-1) [Put 1 10; Get 1] = Some ([None; Some 10], {[1]}) /\
  TS.session (-1) [Put 1 10; Get 1]
    = ([None; Some (Some 10)], {| TS.capacity := -1; TS.cache := [(1, 10)] |}).
Proof. repeat split; vm_compute; reflexivity. Qed.

(** C5. When key k is not resident, get(k) returns the not-found result
    (-1 in C++, undefined in TypeScript) and leaves the whole state as it
    was: resident keys, values and recency order, in C++ the heap included.
    Hence any number of repeated get(k) calls all return not-found and never
    change the state. *)
Theorem C5_get_absent_changes_nothing
    (s : Cpp.state) (t : TS.LRUCache Z Z) (k : Z) (n : nat) :
  k ∉ Cpp.residents s -> k ∉ TS.keys t ->
  Cpp.calls (replicate n (Get k)) s = Some (replicate n (Some (-1)), s) /\
  TS.calls (replicate n (Get k)) t = (replicate n (Some None), t).
Proof.
  intros Hs Ht. split.
  - unfold Cpp.residents in Hs. apply not_elem_of_dom in Hs.
    induction n as [|n IH]; [done|].
    cbn [replicate Cpp.calls Cpp.call].
    rewrite (get_miss_spec _ _ _ Hs). destruct s as [this h]. simpl in *.
    by rewrite IH.
  - induction n as [|n IH]; [done|].
    cbn [replicate TS.calls TS.call]. rewrite (get_miss _ _ Ht).
    by rewrite IH.
Qed.

Lemma C5_witness :
  (7 ∉ Cpp.residents (Cpp.after 2 [Put 1 1; Put 2 2])) /\
  (7 ∉ TS.keys (TS.session 2 [Put 1 1; Put 2 2]).2) /\
  Cpp.calls (replicate 3 (Get 7)) (Cpp.after 2 [Put 1 1; Put 2 2])
    = Some (replicate 3 (Some (-1)), Cpp.after 2 [Put 1 1; Put 2 2]) /\
  TS.calls (replicate 3 (Get 7)) (TS.session 2 [Put 1 1; Put 2 2]).2
    = (replicate 3 (Some None), (TS.session 2 [Put 1 1; Put 2 2]).2).
Proof.
  assert (H1 : 7 ∉ Cpp.residents (Cpp.after 2 [Put 1 1; Put 2 2]))
    by compute_done.
  assert (H2 : 7 ∉ TS.keys (TS.session 2 [Put 1 1; Put 2 2]).2)
    by compute_done.
  split; [exact H1|]. split; [exact H2|].
  exact (C5_get_absent_changes_nothing _ _ 7 3%nat H1 H2).
Defined.

(** C9. For every capacity c with 1 <= c (and c an [int]) and every
    sequence of get and put calls with integer keys and values, the two
    classes cannot be told apart: every call returns the same in both, -1
    in C++ standing for undefined in TypeScript, and they end with the same
    resident keys; indeed the C++ chain read from [head] is the TypeScript
    map read from its newest entry.  The sequence is arbitrary, so this
    holds after each prefix of a longer one. *)
Theorem C9_observational_equivalence (c : Z) (os : list (op Z Z)) :
  1 <= c <= INT_MAX ->
  exists rs s,
    Cpp.session c os = Some (rs, s) /\
    Forall2 same_result rs (TS.session c os).1 /\
    Cpp.residents s = list_to_set (TS.keys (TS.session c os).2) /\
    Cpp.display s.1 s.2 = Some (reverse (TS.cache (TS.session c os).2), s.2).
Proof.
  intros Hc.
  assert (Hc' : 1 <= c < SIZE_MODULUS)
    by (unfold INT_MAX, SIZE_MODULUS in *; lia).
  destruct (after_holds c os) as [H _].
  destruct (lru_ts_calls c os (TS.LRUCache_ctor c) Hc' (TS.reach_ctor c))
    as [Hres Hfin].
  change (reverse (TS.cache (TS.LRUCache_ctor c))) with (@nil (Z * Z)) in *.
  change (TS.calls os (TS.LRUCache_ctor c)) with (TS.session c os) in *.
  rewrite Hfin in H.
  exists (lru_calls c os []).1, (Cpp.after c os). split_and!.
  - apply session_after.
  - done.
  - rewrite (residents_holds _ _ H). unfold TS.keys.
    apply keys_set_perm. by rewrite reverse_Permutation.
  - by apply holds_display.
Qed.

Lemma C9_witness :
  1 <= 2 <= INT_MAX /\
  exists rs s,
    Cpp.session 2 scenario = Some (rs, s) /\
    Forall2 same_result rs (TS.session 2 scenario).1 /\
    Cpp.residents s = list_to_set (TS.keys (TS.session 2 scenario).2) /\
    Cpp.display s.1 s.2
      = Some (reverse (TS.cache (TS.session 2 scenario).2), s.2).
Proof.
  assert (H : 1 <= 2 <= INT_MAX) by (unfold INT_MAX; lia).
  split; [exact H|]. exact (C9_observational_equivalence 2 scenario H).
Defined.

(** C10. In the C++ class a stored value of -1 cannot be told from a miss:
    on a fresh cache of capacity at least 1, after put(k, -1) the key k is
    resident and get(k) returns -1, which is exactly what get(k') returns
    for a key k' that was never inserted. *)
Theorem C10_stored_minus_one_looks_like_a_miss (c k k' : Z) :
  1 <= c <= INT_MAX -> k <> k' ->
  Cpp.session c [Put k (-1)] = Some ([None], Cpp.after c [Put k (-1)]) /\
  k ∈ Cpp.residents (Cpp.after c [Put k (-1)]) /\
  (k' ∉ Cpp.residents (Cpp.after c [Put k (-1)])) /\
  (exists s1, Cpp.call (Get k) (Cpp.after c [Put k (-1)])
              = Some (Some (-1), s1)) /\
  (exists s2, Cpp.call (Get k') (Cpp.after c [Put k (-1)])
              = Some (Some (-1), s2)).
Proof.
  intros Hc Hk.
  assert (Hl : lru_calls c [Put k (-1)] [] = ([None], [(k, -1)])).
  { cbn [lru_calls lru_call fst snd]. unfold lru_put. simpl assoc.
    rewrite to_size_t_id by (unfold INT_MAX, SIZE_MODULUS in *; lia).
    rewrite bool_decide_false by (simpl; lia). done. }
  pose proof (session_after c [Put k (-1)]) as Hrun.
  destruct (after_holds c [Put k (-1)]) as [H _].
  rewrite Hl in Hrun, H. simpl in Hrun, H.
  split_and!.
  - done.
  - apply (resident_holds _ _ _ H). set_solver.
  - rewrite (resident_holds _ _ _ H). set_solver.
  - destruct (sim_get _ _ k H) as (s1 & Hg & _). exists s1.
    rewrite Hg. unfold lru_get. simpl. by rewrite decide_True.
  - destruct (sim_get _ _ k' H) as (s2 & Hg & _). exists s2.
    rewrite Hg. unfold lru_get. simpl. by rewrite decide_False.
Qed.

Lemma C10_witness :
  1 <= 2 <= INT_MAX /\ 5 <> 9 /\
  Cpp.session 2 [Put 5 (-1)] = Some ([None], Cpp.after 2 [Put 5 (-1)]) /\
  5 ∈ Cpp.residents (Cpp.after 2 [Put 5 (-1)]) /\
  (9 ∉ Cpp.residents (Cpp.after 2 [Put 5 (-1)])) /\
  (exists s1, Cpp.call (Get 5) (Cpp.after 2 [Put 5 (-1)])
              = Some (Some (-1), s1)) /\
  (exists s2, Cpp.call (Get 9) (Cpp.after 2 [Put 5 (-1)])
              = Some (Some (-1), s2)).
Proof.
  assert (H1 : 1 <= 2 <= INT_MAX) by (unfold INT_MAX; lia).
  assert (H2 : 5 <> 9) by lia.
  split; [exact H1|]. split; [exact H2|].
  exact (C10_stored_minus_one_looks_like_a_miss 2 5 9 H1 H2).
Defined.

(** The capacity bound where it holds: in the C++ class for every capacity
    that is not negative, in the TypeScript class for every capacity of at
    least one. *)
Lemma cpp_capacity_bound (c : Z) (os : list (op Z Z)) :
  0 <= c <= INT_MAX ->
  exists rs s, Cpp.session c os = Some (rs, s) /\ Z.of_nat (Cpp.count s) <= c.
Proof.
  intros Hc. exists (lru_calls c os []).1, (Cpp.after c os).
  split; [apply session_after|].
  apply (reachable_count c); [lia | | apply after_reachable].
  split; [unfold INT_MIN; lia | lia].
Qed.

Lemma ts_capacity_bound (c : Z) (os : list (op Z Z)) :
  1 <= c -> Z.of_nat (TS.map_size (TS.cache (TS.session c os).2)) <= c.
Proof. intros Hc. apply reachable_size; [done | apply session_reachable]. Qed.

(** C1 at capacity 0.  The C++ class keeps the bound (the node it has just
    linked is the one it evicts); the TypeScript class finds no oldest key
    to delete in the empty map and inserts all the same, so one key is
    resident in a cache of capacity 0. *)
Theorem C1_capacity_zero_bound :
  Cpp.observe 0 [Put 1 1] = Some ([None], ∅) /\
  Cpp.count (Cpp.after 0 [Put 1 1]) = 0%nat /\
  TS.keys (TS.session 0 [Put 1 1]).2 = [1] /\
  ~ Z.of_nat (TS.map_size (TS.cache (TS.session 0 [Put 1 1]).2)) <= 0.
Proof.
  split_and!; [vm_compute; reflexivity.. |].
  vm_compute. intros H. apply H. reflexivity.
Qed.

(** The C++ class with capacity 0: no key is ever resident and every get
    misses. *)
Lemma cpp_zero_capacity (os : list (op Z Z)) :
  exists s,
    Cpp.session 0 os
      = Some ((fun o => match o with
                        | Get _ => Some (-1)
                        | Put _ _ => None
                        end) <$> os, s) /\
    Cpp.residents s = ∅.
Proof.
  assert (Hl : lru_calls 0 os []
               = ((fun o : op Z Z => match o with
                                     | Get _ => Some (-1)
                                     | Put _ _ => None
                                     end) <$> os, [])).
  { induction os as [|o os IH]; [done|].
    cbn [lru_calls]. destruct o as [k|k v].
    - cbn [lru_call lru_get assoc fst snd]. by rewrite IH.
    - assert (Hp : lru_put 0 k v [] = []) by (vm_compute; reflexivity).
      cbn [lru_call fst snd]. rewrite Hp. by rewrite IH. }
  exists (Cpp.after 0 os).
  pose proof (session_after 0 os) as Hrun.
  destruct (after_holds 0 os) as [H _]. rewrite Hl in Hrun, H.
  split; [done|]. by rewrite (residents_holds _ _ H).
Qed.

(** C2 at its first call.  With capacity 0 the C++ class admits nothing and
    get(1) misses; the TypeScript class keeps the entry put(1, 1) inserted
    and get(1) returns 1. *)
Theorem C2_capacity_zero_admission :
  Cpp.observe 0 [Put 1 1; Get 1] = Some ([None; Some (-1)], ∅) /\
  TS.session 0 [Put 1 1; Get 1]
    = ([None; Some (Some 1)], {| TS.capacity := 0; TS.cache := [(1, 1)] |}).
Proof. split; vm_compute; reflexivity. Qed.

(** C6. In every state a client can reach in which key k is resident,
    put(k, v2) overwrites the value of k, moves k to the most recently used
    position (first in the C++ chain printed by [display], last in the
    TypeScript map) and evicts nothing: the resident key set and the size
    stay as they were, and the get(k) that follows returns v2.  The C++
    class and the TypeScript class are covered each on its own: every
    capacity, every reachable state, every resident key of that class. *)
Theorem C6_put_on_resident_key :
  (forall (c : Z) (s : Cpp.state) (k v2 : Z),
      Cpp.reachable c s -> k ∈ Cpp.residents s ->
      exists s' rest,
        Cpp.call (Put k v2) s = Some (None, s') /\
        Cpp.residents s' = Cpp.residents s /\
        Cpp.count s' = Cpp.count s /\
        Cpp.display s'.1 s'.2 = Some ((k, v2) :: rest, s'.2) /\
        exists s'', Cpp.call (Get k) s' = Some (Some v2, s'')) /\
  (forall (c : Z) (t : TS.LRUCache Z Z) (k v2 : Z),
      TS.reachable c t -> k ∈ TS.keys t ->
      list_to_set (TS.keys (TS.put t k v2))
        =@{gset Z} list_to_set (TS.keys t) /\
      TS.map_size (TS.cache (TS.put t k v2)) = TS.map_size (TS.cache t) /\
      last (TS.cache (TS.put t k v2)) = Some (k, v2) /\
      (TS.get (TS.put t k v2) k).1 = Some v2).
Proof.
  split.
  - intros c s k v2 Hs Hks.
    destruct (reachable_holds _ _ Hs) as (os & H & _).
    set (l := (lru_calls c os []).2) in *.
    apply (resident_holds _ _ _ H) in Hks.
    destruct (CppRecency.keys_split _ _ Hks) as (l1 & v0 & l2 & El & Hk1).
    destruct (sim_put s l k v2 H) as (s' & Hrun & H' & _).
    rewrite El in H'. rewrite lru_put_hit in H' by done.
    exists s', (l1 ++ l2). split_and!.
    + done.
    + rewrite (residents_holds _ _ H), (residents_holds _ _ H'), El.
      apply keys_set_perm. rewrite !fmap_cons, !fmap_app, fmap_cons.
      apply Permutation_middle.
    + rewrite (count_holds _ _ H), (count_holds _ _ H'), El.
      rewrite length_cons, !length_app, length_cons. lia.
    + by apply holds_display.
    + destruct (sim_get s' _ k H') as (s'' & Hg & _). exists s''.
      rewrite Hg. unfold lru_get. simpl. by rewrite decide_True.
  - intros c t k v2 Ht Hkt.
    pose proof (reachable_nodup _ _ Ht) as Hnd.
    destruct (map_keys_split _ _ Hkt) as (m1 & v0 & m2 & Em & Hk1).
    rewrite (put_hit t k v0 v2 m1 m2 Em Hnd).
    assert (Hnd' : NoDup (m1 ++ m2 ++ [(k, v2)]).*1).
    { rewrite (moved_keys_perm k v0 v2). unfold TS.keys in Hnd.
      by rewrite Em in Hnd. }
    split_and!.
    + unfold TS.keys. cbn [TS.cache TS.with_cache]. rewrite Em.
      apply keys_set_perm, moved_keys_perm.
    + unfold TS.map_size. cbn [TS.cache TS.with_cache]. rewrite Em.
      rewrite !length_app. simpl. rewrite ?length_app. simpl. lia.
    + cbn [TS.cache TS.with_cache]. by rewrite app_assoc, last_snoc.
    + erewrite (get_hit _ k v2 (m1 ++ m2) []); [done | | done].
      cbn [TS.cache TS.with_cache]. by rewrite <- app_assoc.
Qed.

(** The C++ half at capacity 2, the TypeScript half at capacity 0, where
    the TypeScript map does hold a key. *)
Lemma C6_witness :
  (Cpp.reachable 2 (Cpp.after 2 [Put 1 1; Put 2 2]) /\
   1 ∈ Cpp.residents (Cpp.after 2 [Put 1 1; Put 2 2]) /\
   exists s' rest,
     Cpp.call (Put 1 7) (Cpp.after 2 [Put 1 1; Put 2 2]) = Some (None, s') /\
     Cpp.residents s' = Cpp.residents (Cpp.after 2 [Put 1 1; Put 2 2]) /\
     Cpp.count s' = Cpp.count (Cpp.after 2 [Put 1 1; Put 2 2]) /\
     Cpp.display s'.1 s'.2 = Some ((1, 7) :: rest, s'.2) /\
     exists s'', Cpp.call (Get 1) s' = Some (Some 7, s'')) /\
  (TS.reachable 0 (TS.session 0 [Put 1 1]).2 /\
   1 ∈ TS.keys (TS.session 0 [Put 1 1]).2 /\
   list_to_set (TS.keys (TS.put (TS.session 0 [Put 1 1]).2 1 7))
     =@{gset Z} list_to_set (TS.keys (TS.session 0 [Put 1 1]).2) /\
   TS.map_size (TS.cache (TS.put (TS.session 0 [Put 1 1]).2 1 7))
     = TS.map_size (TS.cache (TS.session 0 [Put 1 1]).2) /\
   last (TS.cache (TS.put (TS.session 0 [Put 1 1]).2 1 7)) = Some (1, 7) /\
   (TS.get (TS.put (TS.session 0 [Put 1 1]).2 1 7) 1).1 = Some 7).
Proof.
  assert (H1 : Cpp.reachable 2 (Cpp.after 2 [Put 1 1; Put 2 2]))
    by apply after_reachable.
  assert (H2 : 1 ∈ Cpp.residents (Cpp.after 2 [Put 1 1; Put 2 2]))
    by compute_done.
  assert (H3 : TS.reachable 0 (TS.session 0 [Put 1 1]).2)
    by apply session_reachable.
  assert (H4 : 1 ∈ TS.keys (TS.session 0 [Put 1 1]).2) by compute_done.
  split.
  - split; [exact H1|]. split; [exact H2|].
    exact (proj1 C6_put_on_resident_key 2 _ 1 7 H1 H2).
  - split; [exact H3|]. split; [exact H4|].
    exact (proj2 C6_put_on_resident_key 0 _ 1 7 H3 H4).
Defined.

(** C7. Let N <= capacity and let put(k1,v1), ..., put(kN,vN), with
    pairwise distinct keys, be applied to a fresh cache.  Then every get of
    one of these keys that follows, in any order and any number of times,
    finds its key resident and returns the value written for it.  The C++
    class, whose capacity is an [int], and the TypeScript class, whose
    capacity is bounded by nothing but N <= capacity, are covered each on
    its own. *)
Theorem C7_puts_within_capacity :
  (forall (c : Z) (kvs : list (Z * Z)) (ks : list Z),
      NoDup kvs.*1 -> Z.of_nat (length kvs) <= c <= INT_MAX ->
      ks ⊆ kvs.*1 ->
      exists rs s,
        Cpp.session c (puts kvs ++ gets ks)
          = Some (replicate (length kvs) None ++ rs, s) /\
        Forall2 (fun k r => exists v, (k, v) ∈ kvs /\ r = Some v) ks rs /\
        forall k, k ∈ kvs.*1 -> k ∈ Cpp.residents s) /\
  (forall (c : Z) (kvs : list (Z * Z)) (ks : list Z),
      NoDup kvs.*1 -> Z.of_nat (length kvs) <= c -> ks ⊆ kvs.*1 ->
      exists rs',
        (TS.session c (puts kvs ++ gets ks)).1
          = replicate (length kvs) None ++ rs' /\
        Forall2 (fun k r => exists v, (k, v) ∈ kvs /\ r = Some (Some v))
                ks rs' /\
        forall k, k ∈ kvs.*1 ->
                  k ∈ TS.keys (TS.session c (puts kvs ++ gets ks)).2).
Proof.
  split.
  - intros c kvs ks Hnd Hc Hks.
    pose proof (session_after c (puts kvs ++ gets ks)) as Hrun.
    destruct (after_holds c (puts kvs ++ gets ks)) as [H _].
    rewrite lru_calls_app in Hrun, H.
    assert (Hputs : lru_calls c (puts kvs) []
                    = (replicate (length kvs) None, reverse kvs ++ [])).
    { apply lru_calls_puts; [done | |].
      - intros k _ Hk. by apply elem_of_nil in Hk.
      - rewrite to_size_t_id; [simpl; lia|].
        unfold INT_MAX, SIZE_MODULUS in *. lia. }
    rewrite Hputs in Hrun, H.
    cbn [fst snd] in Hrun, H. rewrite app_nil_r in Hrun, H.
    destruct (lru_calls_gets c ks (reverse kvs)) as (rs & l' & Hg & Hp & HF).
    { by rewrite fmap_reverse, reverse_Permutation. }
    { intros k Hk. rewrite fmap_reverse, elem_of_reverse. by apply Hks. }
    rewrite Hg in Hrun, H. cbn [fst snd] in Hrun, H.
    exists rs, (Cpp.after c (puts kvs ++ gets ks)). split_and!.
    + done.
    + eapply Forall2_impl; [exact HF|].
      intros k r (v & Hv & ->). exists v. split; [|done].
      by apply elem_of_reverse.
    + intros k Hk. apply (resident_holds _ _ _ H).
      by rewrite Hp, fmap_reverse, elem_of_reverse.
  - intros c kvs ks Hnd Hc Hks.
    unfold TS.session. rewrite calls_app.
    assert (Hputs : TS.calls (puts kvs) (TS.LRUCache_ctor c)
                    = (replicate (length kvs) None,
                       TS.with_cache kvs (TS.LRUCache_ctor c))).
    { rewrite calls_puts; [done | done | | simpl; lia].
      intros k _ Hk. by apply elem_of_nil in Hk. }
    rewrite Hputs. cbn [fst snd].
    destruct (calls_gets ks (TS.with_cache kvs (TS.LRUCache_ctor c)))
      as (rs & t' & Hg & Hp & HF).
    { done. }
    { intros k Hk. by apply Hks. }
    rewrite Hg. cbn [fst snd]. exists rs. split_and!.
    + done.
    + eapply Forall2_impl; [exact HF|].
      intros k r (v & Hv & ->). by exists v.
    + intros k Hk. unfold TS.keys. by rewrite Hp.
Qed.

(** The C++ half at capacity 3, the TypeScript half at a capacity above
    every [int]. *)
Lemma C7_witness :
  (NoDup [(1, 10); (2, 20)].*1 /\
   Z.of_nat (length [(1, 10); (2, 20)]) <= 3 <= INT_MAX /\
   [2; 1; 2] ⊆ [(1, 10); (2, 20)].*1 /\
   exists rs s,
     Cpp.session 3 (puts [(1, 10); (2, 20)] ++ gets [2; 1; 2])
       = Some (replicate (length [(1, 10); (2, 20)]) None ++ rs, s) /\
     Forall2 (fun k r => exists v, (k, v) ∈ [(1, 10); (2, 20)] /\ r = Some v)
             [2; 1; 2] rs /\
     forall k, k ∈ [(1, 10); (2, 20)].*1 -> k ∈ Cpp.residents s) /\
  (NoDup [(1, 10); (2, 20)].*1 /\
   Z.of_nat (length [(1, 10); (2, 20)]) <= 2 ^ 40 /\
   [2; 1; 2] ⊆ [(1, 10); (2, 20)].*1 /\
   exists rs',
     (TS.session (2 ^ 40) (puts [(1, 10); (2, 20)] ++ gets [2; 1; 2])).1
       = replicate (length [(1, 10); (2, 20)]) None ++ rs' /\
     Forall2 (fun k r => exists v, (k, v) ∈ [(1, 10); (2, 20)]
                                   /\ r = Some (Some v))
             [2; 1; 2] rs' /\
     forall k, k ∈ [(1, 10); (2, 20)].*1 ->
               k ∈ TS.keys (TS.session (2 ^ 40)
                              (puts [(1, 10); (2, 20)] ++ gets [2; 1; 2])).2).
Proof.
  assert (H1 : NoDup [(1, 10); (2, 20)].*1) by compute_done.
  assert (H2 : Z.of_nat (length [(1, 10); (2, 20)]) <= 3 <= INT_MAX)
    by (unfold INT_MAX; simpl; lia).
  assert (H3 : [2; 1; 2] ⊆ [(1, 10); (2, 20)].*1) by compute_done.
  assert (H4 : Z.of_nat (length [(1, 10); (2, 20)]) <= 2 ^ 40)
    by (simpl; lia).
  split.
  - split; [exact H1|]. split; [exact H2|]. split; [exact H3|].
    exact (proj1 C7_puts_within_capacity 3 [(1, 10); (2, 20)] [2; 1; 2]
             H1 H2 H3).
  - split; [exact H1|]. split; [exact H4|]. split; [exact H3|].
    exact (proj2 C7_puts_within_capacity (2 ^ 40) [(1, 10); (2, 20)]
             [2; 1; 2] H1 H4 H3).
Defined.

(** The conversion of a negative [int] to [size_t]. *)
Lemma to_size_t_negative c :
  INT_MIN <= c < 0 -> to_size_t INT_MIN <= to_size_t c.
Proof.
  intros Hc. unfold to_size_t, INT_MIN, SIZE_MODULUS in *.
  rewrite <- (Z.mod_add c 1) by lia.
  rewrite <- (Z.mod_add (- 2 ^ 31) 1) by lia.
  rewrite !Z.mod_small by lia. lia.
Qed.

(** C8. In the C++ class built with a negative capacity no put evicts.  The
    capacity is converted to [size_t] for the comparison with the map size
    and becomes at least 2^64 - 2^31, more than any number of nodes the
    machine can hold.  So while the resident count is below that bound,
    put(k, v) keeps every resident key, a put of a key that is not resident
    raises the count by one, and N puts of distinct keys on the fresh cache
    leave N resident keys, for every N up to the bound. *)
Theorem C8_negative_capacity_never_evicts
    (c : Z) (s : Cpp.state) (k v : Z) (kvs : list (Z * Z)) :
  INT_MIN <= c < 0 -> Cpp.reachable c s ->
  Z.of_nat (Cpp.count s) < to_size_t INT_MIN ->
  NoDup kvs.*1 -> Z.of_nat (length kvs) <= to_size_t INT_MIN ->
  (exists s',
      Cpp.call (Put k v) s = Some (None, s') /\
      Cpp.residents s' = {[k]} ∪ Cpp.residents s /\
      (k ∉ Cpp.residents s -> Cpp.count s' = S (Cpp.count s))) /\
  (Cpp.session c (puts kvs)
     = Some (replicate (length kvs) None, Cpp.after c (puts kvs)) /\
   Cpp.count (Cpp.after c (puts kvs)) = length kvs).
Proof.
  intros Hc Hs Hcount Hnd Hlen.
  pose proof (to_size_t_negative c Hc) as Hconv. split.
  - destruct (reachable_holds _ _ Hs) as (os & H & Hcap).
    set (l := (lru_calls c os []).2) in *.
    rewrite (count_holds _ _ H) in Hcount.
    destruct (sim_put s l k v H) as (s' & Hrun & H' & _).
    rewrite Hcap in H'. exists s'. split; [done|].
    rewrite (residents_holds _ _ H), (count_holds _ _ H).
    destruct (decide (k ∈ l.*1)) as [Hin|Hni].
    + destruct (CppRecency.keys_split _ _ Hin) as (l1 & v0 & l2 & El & Hk1).
      rewrite El in H'. rewrite lru_put_hit in H' by done.
      split; [|by rewrite elem_of_list_to_set].
      rewrite (residents_holds _ _ H'), El.
      rewrite !fmap_cons, !fmap_app, fmap_cons. cbn [fst].
      rewrite list_to_set_cons, !list_to_set_app_L, list_to_set_cons.
      set_solver.
    + rewrite lru_put_new in H' by done.
      rewrite bool_decide_false in H' by lia.
      rewrite (residents_holds _ _ H'), (count_holds _ _ H').
      split; [|done]. rewrite !fmap_cons. cbn [fst length].
      by rewrite list_to_set_cons.
  - pose proof (session_after c (puts kvs)) as Hrun.
    destruct (after_holds c (puts kvs)) as [H _].
    assert (Hputs : lru_calls c (puts kvs) []
                    = (replicate (length kvs) None, reverse kvs ++ [])).
    { apply lru_calls_puts; [done | | simpl; lia].
      intros k' _ Hk. by apply elem_of_nil in Hk. }
    rewrite Hputs in Hrun, H.
    split; [done|].
    rewrite (count_holds _ _ H). cbn [snd].
    by rewrite app_nil_r, length_reverse.
Qed.

Lemma C8_witness :
  INT_MIN <= -1 < 0 /\
  Cpp.reachable (-1) (Cpp.after (-1) [Put 1 1]) /\
  Z.of_nat (Cpp.count (Cpp.after (-1) [Put 1 1])) < to_size_t INT_MIN /\
  NoDup [(1, 1); (2, 2); (3, 3)].*1 /\
  Z.of_nat (length [(1, 1); (2, 2); (3, 3)]) <= to_size_t INT_MIN /\
  (exists s',
      Cpp.call (Put 2 2) (Cpp.after (-1) [Put 1 1]) = Some (None, s') /\
      Cpp.residents s' = {[2]} ∪ Cpp.residents (Cpp.after (-1) [Put 1 1]) /\
      (2 ∉ Cpp.residents (Cpp.after (-1) [Put 1 1]) ->
       Cpp.count s' = S (Cpp.count (Cpp.after (-1) [Put 1 1])))) /\
  (Cpp.session (-1) (puts [(1, 1); (2, 2); (3, 3)])
     = Some (replicate (length [(1, 1); (2, 2); (3, 3)]) None,
             Cpp.after (-1) (puts [(1, 1); (2, 2); (3, 3)])) /\
   Cpp.count (Cpp.after (-1) (puts [(1, 1); (2, 2); (3, 3)]))
     = length [(1, 1); (2, 2); (3, 3)]).
Proof.
  assert (H1 : INT_MIN <= -1 < 0) by (unfold INT_MIN; lia).
  assert (H2 : Cpp.reachable (-1) (Cpp.after (-1) [Put 1 1]))
    by apply after_reachable.
  assert (H3 : Z.of_nat (Cpp.count (Cpp.after (-1) [Put 1 1]))
               < to_size_t INT_MIN) by (vm_compute; reflexivity).
  assert (H4 : NoDup [(1, 1); (2, 2); (3, 3)].*1) by compute_done.
  assert (H5 : Z.of_nat (length [(1, 1); (2, 2); (3, 3)])
               <= to_size_t INT_MIN) by (vm_compute; discriminate).
  split; [exact H1|]. split; [exact H2|]. split; [exact H3|].
  split; [exact H4|]. split; [exact H5|].
  exact (C8_negative_capacity_never_evicts (-1) _ 2 2 _ H1 H2 H3 H4 H5).
Defined.

End Claims.

(** * Further properties of the two classes *)

Section CppOrder.
Import Recency CppHeap CppRecency TSFacts Equiv.

(** What [display] prints in a reachable state is the recency list. *)
Lemma reachable_display c s l h :
  Cpp.reachable c s -> Cpp.display s.1 s.2 = Some (l, h) ->
  holds s l /\ Cpp.capacity s.1 = c.
Proof.
  intros (os & H & Hc)%reachable_holds Hd.
  rewrite (holds_display _ _ H) in Hd. by injection Hd as <- _.
Qed.

(** X1. In every reachable state [display] runs to the end without changing
    the heap, and what it prints agrees with the hash map: the keys printed
    are pairwise distinct, they are exactly the resident keys, and there
    are as many as the map has entries. *)
Theorem X1_cpp_display_agrees_with_index (c : Z) (s : Cpp.state) :
  Cpp.reachable c s ->
  exists l,
    Cpp.display s.1 s.2 = Some (l, s.2) /\
    NoDup l.*1 /\
    list_to_set l.*1 = Cpp.residents s /\
    length l = Cpp.count s.
Proof.
  intros (os & H & _)%reachable_holds.
  eexists. split_and!.
  - by apply holds_display.
  - by eapply holds_nodup.
  - by rewrite (residents_holds _ _ H).
  - by rewrite (count_holds _ _ H).
Qed.

Lemma X1_witness :
  Cpp.reachable 2 (Cpp.after 2 scenario) /\
  exists l,
    Cpp.display (Cpp.after 2 scenario).1 (Cpp.after 2 scenario).2
      = Some (l, (Cpp.after 2 scenario).2) /\
    NoDup l.*1 /\
    list_to_set l.*1 = Cpp.residents (Cpp.after 2 scenario) /\
    length l = Cpp.count (Cpp.after 2 scenario).
Proof.
  assert (H : Cpp.reachable 2 (Cpp.after 2 scenario))
    by apply after_reachable.
  split; [exact H|]. exact (X1_cpp_display_agrees_with_index 2 _ H).
Defined.

(** X2. get(k) on a resident key returns the value stored under k and moves
    its node right after [head]: if [display] printed l1, (k, v), l2 before
    the call, get returns v and [display] prints (k, v), l1, l2 after it.
    The other entries keep their order; the resident keys and their number
    do not change. *)
Theorem X2_cpp_get_hit_promotes
    (c : Z) (s : Cpp.state) (l1 l2 : list (Z * Z)) (k v : Z) :
  Cpp.reachable c s ->
  Cpp.display s.1 s.2 = Some (l1 ++ (k, v) :: l2, s.2) ->
  exists s',
    Cpp.call (Get k) s = Some (Some v, s') /\
    Cpp.display s'.1 s'.2 = Some ((k, v) :: l1 ++ l2, s'.2) /\
    Cpp.residents s' = Cpp.residents s /\
    Cpp.count s' = Cpp.count s.
Proof.
  intros Hs Hd. destruct (reachable_display _ _ _ _ Hs Hd) as [H _].
  pose proof (holds_nodup _ _ H) as Hnd.
  apply middle_nodup in Hnd as [Hk1 _].
  destruct (sim_get s _ k H) as (s' & Hrun & H' & _).
  rewrite lru_get_hit in Hrun, H' by done. cbn [fst snd] in Hrun, H'.
  exists s'. split_and!.
  - done.
  - by apply holds_display.
  - rewrite (residents_holds _ _ H), (residents_holds _ _ H').
    apply keys_set_perm, fmap_Permutation, Permutation_middle.
  - rewrite (count_holds _ _ H), (count_holds _ _ H').
    rewrite length_cons, !length_app, length_cons. lia.
Qed.

Lemma X2_witness :
  Cpp.reachable 2 (Cpp.after 2 [Put 1 10; Put 2 20]) /\
  Cpp.display (Cpp.after 2 [Put 1 10; Put 2 20]).1
              (Cpp.after 2 [Put 1 10; Put 2 20]).2
    = Some ([(2, 20)] ++ (1, 10) :: [], (Cpp.after 2 [Put 1 10; Put 2 20]).2) /\
  exists s',
    Cpp.call (Get 1) (Cpp.after 2 [Put 1 10; Put 2 20]) = Some (Some 10, s') /\
    Cpp.display s'.1 s'.2 = Some ((1, 10) :: [(2, 20)] ++ [], s'.2) /\
    Cpp.residents s' = Cpp.residents (Cpp.after 2 [Put 1 10; Put 2 20]) /\
    Cpp.count s' = Cpp.count (Cpp.after 2 [Put 1 10; Put 2 20]).
Proof.
  assert (H1 : Cpp.reachable 2 (Cpp.after 2 [Put 1 10; Put 2 20]))
    by apply after_reachable.
  assert (H2 : Cpp.display (Cpp.after 2 [Put 1 10; Put 2 20]).1
                           (Cpp.after 2 [Put 1 10; Put 2 20]).2
               = Some ([(2, 20)] ++ (1, 10) :: [],
                       (Cpp.after 2 [Put 1 10; Put 2 20]).2))
    by (vm_compute; reflexivity).
  split; [exact H1|]. split; [exact H2|].
  exact (X2_cpp_get_hit_promotes 2 _ [(2, 20)] [] 1 10 H1 H2).
Defined.

Lemma removelast_snoc_cons {A} (x y : A) l :
  removelast (x :: l ++ [y]) = x :: l.
Proof. by rewrite app_comm_cons, removelast_last. Qed.

(** X3. put(k, v) of a key that is not resident, while fewer than
    [capacity] keys are resident, links the new node right after [head] and
    evicts nothing: [display] prints (k, v) followed by what it printed
    before, k joins the resident keys and their number grows by one. *)
Theorem X3_cpp_put_new_with_room
    (c : Z) (s : Cpp.state) (l : list (Z * Z)) (k v : Z) :
  0 <= c <= INT_MAX -> Cpp.reachable c s ->
  Cpp.display s.1 s.2 = Some (l, s.2) ->
  k ∉ Cpp.residents s -> Z.of_nat (Cpp.count s) < c ->
  exists s',
    Cpp.call (Put k v) s = Some (None, s') /\
    Cpp.display s'.1 s'.2 = Some ((k, v) :: l, s'.2) /\
    Cpp.residents s' = {[k]} ∪ Cpp.residents s /\
    Cpp.count s' = S (Cpp.count s).
Proof.
  intros Hc Hs Hd Hk Hroom.
  destruct (reachable_display _ _ _ _ Hs Hd) as [H Hcap].
  rewrite (resident_holds _ _ _ H) in Hk.
  rewrite (count_holds _ _ H) in Hroom.
  destruct (sim_put s l k v H) as (s' & Hrun & H' & _).
  rewrite Hcap, lru_put_new in H' by done.
  rewrite to_size_t_id in H' by (unfold INT_MAX, SIZE_MODULUS in *; lia).
  rewrite bool_decide_false in H' by lia.
  exists s'. split_and!.
  - done.
  - by apply holds_display.
  - rewrite (residents_holds _ _ H), (residents_holds _ _ H').
    by rewrite fmap_cons, list_to_set_cons.
  - by rewrite (count_holds _ _ H), (count_holds _ _ H').
Qed.

Lemma X3_witness :
  0 <= 2 <= INT_MAX /\
  Cpp.reachable 2 (Cpp.after 2 [Put 1 10]) /\
  Cpp.display (Cpp.after 2 [Put 1 10]).1 (Cpp.after 2 [Put 1 10]).2
    = Some ([(1, 10)], (Cpp.after 2 [Put 1 10]).2) /\
  (5 ∉ Cpp.residents (Cpp.after 2 [Put 1 10])) /\
  Z.of_nat (Cpp.count (Cpp.after 2 [Put 1 10])) < 2 /\
  exists s',
    Cpp.call (Put 5 50) (Cpp.after 2 [Put 1 10]) = Some (None, s') /\
    Cpp.display s'.1 s'.2 = Some ((5, 50) :: [(1, 10)], s'.2) /\
    Cpp.residents s' = {[5]} ∪ Cpp.residents (Cpp.after 2 [Put 1 10]) /\
    Cpp.count s' = S (Cpp.count (Cpp.after 2 [Put 1 10])).
Proof.
  assert (H1 : 0 <= 2 <= INT_MAX) by (unfold INT_MAX; lia).
  assert (H2 : Cpp.reachable 2 (Cpp.after 2 [Put 1 10]))
    by apply after_reachable.
  assert (H3 : Cpp.display (Cpp.after 2 [Put 1 10]).1
                           (Cpp.after 2 [Put 1 10]).2
               = Some ([(1, 10)], (Cpp.after 2 [Put 1 10]).2))
    by (vm_compute; reflexivity).
  assert (H4 : 5 ∉ Cpp.residents (Cpp.after 2 [Put 1 10])) by compute_done.
  assert (H5 : Z.of_nat (Cpp.count (Cpp.after 2 [Put 1 10])) < 2)
    by (vm_compute; reflexivity).
  split; [exact H1|]. split; [exact H2|]. split; [exact H3|].
  split; [exact H4|]. split; [exact H5|].
  exact (X3_cpp_put_new_with_room 2 _ _ 5 50 H1 H2 H3 H4 H5).
Defined.

(** X4. put(k, v) of a key that is not resident, in a cache that already
    holds [capacity] keys, evicts exactly the key [display] printed last
    (the node before [tail]) and no other: [display] then prints (k, v)
    followed by the former entries without the last one, the evicted key is
    no longer resident, and the number of resident keys is unchanged. *)
Theorem X4_cpp_put_new_evicts_least_recent
    (c : Z) (s : Cpp.state) (l : list (Z * Z)) (kl vl k v : Z) :
  0 <= c <= INT_MAX -> Cpp.reachable c s ->
  Cpp.display s.1 s.2 = Some (l ++ [(kl, vl)], s.2) ->
  k ∉ Cpp.residents s -> c <= Z.of_nat (Cpp.count s) ->
  exists s',
    Cpp.call (Put k v) s = Some (None, s') /\
    Cpp.display s'.1 s'.2 = Some ((k, v) :: l, s'.2) /\
    Cpp.residents s' = {[k]} ∪ (Cpp.residents s ∖ {[kl]}) /\
    (kl ∉ Cpp.residents s') /\
    Cpp.count s' = Cpp.count s.
Proof.
  intros Hc Hs Hd Hk Hfull.
  destruct (reachable_display _ _ _ _ Hs Hd) as [H Hcap].
  rewrite (resident_holds _ _ _ H) in Hk.
  rewrite (count_holds _ _ H) in Hfull.
  pose proof (holds_nodup _ _ H) as Hnd.
  destruct (sim_put s _ k v H) as (s' & Hrun & H' & _).
  rewrite Hcap, lru_put_new in H' by done.
  rewrite to_size_t_id in H' by (unfold INT_MAX, SIZE_MODULUS in *; lia).
  rewrite bool_decide_true in H' by lia.
  rewrite removelast_snoc_cons in H'.
  rewrite fmap_app in Hk, Hnd. simpl in Hk, Hnd.
  apply NoDup_app in Hnd as (_ & Hdisj & _).
  assert (Hkl : kl ∉ l.*1) by (intros Hin; apply (Hdisj _ Hin); by left).
  assert (Hne : kl <> k) by (intros ->; apply Hk; set_solver).
  exists s'. split_and!.
  - done.
  - by apply holds_display.
  - rewrite (residents_holds _ _ H), (residents_holds _ _ H').
    rewrite fmap_cons, fmap_app, list_to_set_cons, list_to_set_app_L.
    simpl. set_solver.
  - rewrite (resident_holds _ _ _ H'), fmap_cons. set_solver.
  - rewrite (count_holds _ _ H), (count_holds _ _ H').
    rewrite length_app. simpl. lia.
Qed.

Lemma X4_witness :
  0 <= 2 <= INT_MAX /\
  Cpp.reachable 2 (Cpp.after 2 [Put 1 10; Put 2 20; Get 1]) /\
  Cpp.display (Cpp.after 2 [Put 1 10; Put 2 20; Get 1]).1
              (Cpp.after 2 [Put 1 10; Put 2 20; Get 1]).2
    = Some ([(1, 10)] ++ [(2, 20)],
            (Cpp.after 2 [Put 1 10; Put 2 20; Get 1]).2) /\
  (3 ∉ Cpp.residents (Cpp.after 2 [Put 1 10; Put 2 20; Get 1])) /\
  2 <= Z.of_nat (Cpp.count (Cpp.after 2 [Put 1 10; Put 2 20; Get 1])) /\
  exists s',
    Cpp.call (Put 3 30) (Cpp.after 2 [Put 1 10; Put 2 20; Get 1])
      = Some (None, s') /\
    Cpp.display s'.1 s'.2 = Some ((3, 30) :: [(1, 10)], s'.2) /\
    Cpp.residents s'
      = {[3]} ∪ (Cpp.residents (Cpp.after 2 [Put 1 10; Put 2 20; Get 1])
                 ∖ {[2]}) /\
    (2 ∉ Cpp.residents s') /\
    Cpp.count s' = Cpp.count (Cpp.after 2 [Put 1 10; Put 2 20; Get 1]).
Proof.
  assert (H1 : 0 <= 2 <= INT_MAX) by (unfold INT_MAX; lia).
  assert (H2 : Cpp.reachable 2 (Cpp.after 2 [Put 1 10; Put 2 20; Get 1]))
    by apply after_reachable.
  assert (H3 : Cpp.display (Cpp.after 2 [Put 1 10; Put 2 20; Get 1]).1
                           (Cpp.after 2 [Put 1 10; Put 2 20; Get 1]).2
               = Some ([(1, 10)] ++ [(2, 20)],
                       (Cpp.after 2 [Put 1 10; Put 2 20; Get 1]).2))
    by (vm_compute; reflexivity).
  assert (H4 : 3 ∉ Cpp.residents (Cpp.after 2 [Put 1 10; Put 2 20; Get 1]))
    by compute_done.
  assert (H5 : 2 <= Z.of_nat
                      (Cpp.count (Cpp.after 2 [Put 1 10; Put 2 20; Get 1])))
    by (vm_compute; discriminate).
  split; [exact H1|]. split; [exact H2|]. split; [exact H3|].
  split; [exact H4|]. split; [exact H5|].
  exact (X4_cpp_put_new_evicts_least_recent 2 _ _ 2 20 3 30
           H1 H2 H3 H4 H5).
Defined.

Lemma lru_put_first c k v l :
  1 <= c < SIZE_MODULUS -> exists rest, lru_put c k v l = (k, v) :: rest.
Proof.
  intros Hc. unfold lru_put, touch.
  destruct (assoc k l); [eauto|].
  rewrite to_size_t_id by lia. case_bool_decide; [|eauto].
  destruct l as [|x l]; [simpl in *; lia|].
  exists (removelast (x :: l)). done.
Qed.

(** X5. With a capacity of at least one, put(k, v) followed by get(k)
    returns v, whatever the state before and whether or not k was resident:
    the put leaves the node of k right after [head], so the eviction it may
    trigger never removes the entry it has just written. *)
Theorem X5_cpp_put_then_get (c : Z) (s : Cpp.state) (k v : Z) :
  1 <= c <= INT_MAX -> Cpp.reachable c s ->
  exists s' rest s'',
    Cpp.call (Put k v) s = Some (None, s') /\
    Cpp.display s'.1 s'.2 = Some ((k, v) :: rest, s'.2) /\
    k ∈ Cpp.residents s' /\
    Cpp.call (Get k) s' = Some (Some v, s'').
Proof.
  intros Hc Hs. destruct (reachable_holds _ _ Hs) as (os & H & Hcap).
  destruct (sim_put s _ k v H) as (s' & Hrun & H' & _).
  destruct (lru_put_first (Cpp.capacity s.1) k v (lru_calls c os []).2)
    as (rest & Hput).
  { rewrite Hcap. unfold INT_MAX, SIZE_MODULUS in *. lia. }
  rewrite Hput in H'.
  destruct (sim_get s' _ k H') as (s'' & Hget & _).
  exists s', rest, s''. split_and!.
  - done.
  - by apply holds_display.
  - apply (resident_holds _ _ _ H'). rewrite fmap_cons. by left.
  - rewrite Hget. unfold lru_get. simpl. by rewrite decide_True.
Qed.

Lemma X5_witness :
  1 <= 1 <= INT_MAX /\
  Cpp.reachable 1 (Cpp.after 1 [Put 1 10]) /\
  exists s' rest s'',
    Cpp.call (Put 2 20) (Cpp.after 1 [Put 1 10]) = Some (None, s') /\
    Cpp.display s'.1 s'.2 = Some ((2, 20) :: rest, s'.2) /\
    2 ∈ Cpp.residents s' /\
    Cpp.call (Get 2) s' = Some (Some 20, s'').
Proof.
  assert (H1 : 1 <= 1 <= INT_MAX) by (unfold INT_MAX; lia).
  assert (H2 : Cpp.reachable 1 (Cpp.after 1 [Put 1 10]))
    by apply after_reachable.
  split; [exact H1|]. split; [exact H2|].
  exact (X5_cpp_put_then_get 1 _ 2 20 H1 H2).
Defined.

Lemma elem_of_remove (x : Z * Z) k l : x ∈ remove k l -> x ∈ l.
Proof.
  induction l as [|[k' v'] l IH]; simpl; [done|].
  case_decide.
  - intros ?. by right.
  - intros [->|?]%elem_of_cons; [by left | right; by apply IH].
Qed.

Lemma elem_of_removelast_pair (x : Z * Z) l : x ∈ removelast l -> x ∈ l.
Proof.
  induction l as [|y l IH]; [done|].
  destruct l as [|z l]; [by intros ?%elem_of_nil|].
  change (removelast (y :: z :: l)) with (y :: removelast (z :: l)).
  intros [->|?]%elem_of_cons; [left | right; by apply IH].
Qed.

Lemma lru_call_keeps_others c o l (x : Z * Z) :
  x ∈ (lru_call c o l).2 -> x.1 <> op_key o -> x ∈ l.
Proof.
  destruct o as [k|k v]; cbn [lru_call snd op_key].
  - unfold lru_get. destruct (assoc k l) as [v|]; [|done].
    cbn [snd]. unfold touch.
    intros [->|?%elem_of_remove]%elem_of_cons; done.
  - unfold lru_put, touch. destruct (assoc k l) as [v0|].
    + intros [->|?%elem_of_remove]%elem_of_cons; done.
    + case_bool_decide.
      * intros [->|?]%elem_of_removelast_pair%elem_of_cons; done.
      * intros [->|?]%elem_of_cons; done.
Qed.

(** X6. A call on key k never writes to the entry of another key: every
    entry (k', v') with k' different from k that [display] prints after a
    get(k) or a put(k, v) was printed with the same value before it.  No
    call makes another key resident or changes the value stored under it. *)
Theorem X6_cpp_other_entries_untouched
    (c : Z) (s s' : Cpp.state) (o : op Z Z) (r : option Z)
    (l l' : list (Z * Z)) (k' v' : Z) :
  Cpp.reachable c s -> Cpp.call o s = Some (r, s') ->
  Cpp.display s.1 s.2 = Some (l, s.2) ->
  Cpp.display s'.1 s'.2 = Some (l', s'.2) ->
  k' <> op_key o -> (k', v') ∈ l' -> (k', v') ∈ l.
Proof.
  intros Hs Hcall Hd Hd' Hk Hin.
  destruct (reachable_display _ _ _ _ Hs Hd) as [H Hcap].
  destruct (sim_call c o s l H Hcap) as (s0 & Hrun & H0 & _).
  rewrite Hcall in Hrun. injection Hrun as _ <-.
  rewrite (holds_display _ _ H0) in Hd'. injection Hd' as <-.
  by eapply lru_call_keeps_others.
Qed.

Lemma X6_witness :
  Cpp.reachable 2 (Cpp.after 2 [Put 1 10; Put 2 20]) /\
  Cpp.call (Put 3 30) (Cpp.after 2 [Put 1 10; Put 2 20])
    = Some (None, Cpp.after 2 [Put 1 10; Put 2 20; Put 3 30]) /\
  Cpp.display (Cpp.after 2 [Put 1 10; Put 2 20]).1
              (Cpp.after 2 [Put 1 10; Put 2 20]).2
    = Some ([(2, 20); (1, 10)], (Cpp.after 2 [Put 1 10; Put 2 20]).2) /\
  Cpp.display (Cpp.after 2 [Put 1 10; Put 2 20; Put 3 30]).1
              (Cpp.after 2 [Put 1 10; Put 2 20; Put 3 30]).2
    = Some ([(3, 30); (2, 20)],
            (Cpp.after 2 [Put 1 10; Put 2 20; Put 3 30]).2) /\
  2 <> op_key (Put (K := Z) 3 30) /\
  (2, 20) ∈ [(3, 30); (2, 20)] /\
  (2, 20) ∈ [(2, 20); (1, 10)].
Proof.
  assert (H1 : Cpp.reachable 2 (Cpp.after 2 [Put 1 10; Put 2 20]))
    by apply after_reachable.
  assert (H2 : Cpp.call (Put 3 30) (Cpp.after 2 [Put 1 10; Put 2 20])
               = Some (None, Cpp.after 2 [Put 1 10; Put 2 20; Put 3 30]))
    by (vm_compute; reflexivity).
  assert (H3 : Cpp.display (Cpp.after 2 [Put 1 10; Put 2 20]).1
                           (Cpp.after 2 [Put 1 10; Put 2 20]).2
               = Some ([(2, 20); (1, 10)],
                       (Cpp.after 2 [Put 1 10; Put 2 20]).2))
    by (vm_compute; reflexivity).
  assert (H4 : Cpp.display (Cpp.after 2 [Put 1 10; Put 2 20; Put 3 30]).1
                           (Cpp.after 2 [Put 1 10; Put 2 20; Put 3 30]).2
               = Some ([(3, 30); (2, 20)],
                       (Cpp.after 2 [Put 1 10; Put 2 20; Put 3 30]).2))
    by (vm_compute; reflexivity).
  assert (H5 : 2 <> op_key (Put (K := Z) 3 30)) by (simpl; lia).
  assert (H6 : (2, 20) ∈ [(3, 30); (2, 20)]) by compute_done.
  split; [exact H1|]. split; [exact H2|]. split; [exact H3|].
  split; [exact H4|]. split; [exact H5|]. split; [exact H6|].
  exact (X6_cpp_other_entries_untouched 2 _ _ _ _ _ _ 2 20
           H1 H2 H3 H4 H5 H6).
Defined.

(** X7. The capacity bound of the C++ class: for every capacity that is not
    negative, no reachable state holds more than [capacity] keys, capacity
    0 included. *)
Theorem X7_cpp_never_exceeds_capacity (c : Z) (s : Cpp.state) :
  0 <= c <= INT_MAX -> Cpp.reachable c s -> Z.of_nat (Cpp.count s) <= c.
Proof.
  intros Hc Hs. apply (reachable_count c); [lia | | done].
  split; [unfold INT_MIN; lia | lia].
Qed.

Lemma X7_witness :
  0 <= 2 <= INT_MAX /\
  Cpp.reachable 2 (Cpp.after 2 scenario) /\
  Z.of_nat (Cpp.count (Cpp.after 2 scenario)) <= 2.
Proof.
  assert (H1 : 0 <= 2 <= INT_MAX) by (unfold INT_MAX; lia).
  assert (H2 : Cpp.reachable 2 (Cpp.after 2 scenario))
    by apply after_reachable.
  split; [exact H1|]. split; [exact H2|].
  exact (X7_cpp_never_exceeds_capacity 2 _ H1 H2).
Defined.

(** X8. The C++ class with capacity 0 never admits a key.  In every state
    reachable from [LRUCache(0)] no key is resident and [display] prints
    nothing; every get returns -1 and leaves the state as it is; every put
    links its node, finds the size 1 above the capacity and evicts that
    very node, so the cache is empty again after it. *)
Theorem X8_cpp_capacity_zero_stays_empty (s : Cpp.state) (k v : Z) :
  Cpp.reachable 0 s ->
  Cpp.residents s = ∅ /\
  Cpp.display s.1 s.2 = Some ([], s.2) /\
  Cpp.call (Get k) s = Some (Some (-1), s) /\
  exists s', Cpp.call (Put k v) s = Some (None, s') /\ Cpp.residents s' = ∅.
Proof.
  assert (Hempty : forall s0, Cpp.reachable 0 s0 -> holds s0 []).
  { intros s0 Hs0. destruct (reachable_holds _ _ Hs0) as (os & H & _).
    assert (Hlen : Z.of_nat (length (lru_calls 0 os []).2) <= 0).
    { apply lru_calls_length; [unfold SIZE_MODULUS; lia | simpl; lia]. }
    destruct (lru_calls 0 os []).2; [done | simpl in Hlen; lia]. }
  intros Hs. pose proof (Hempty s Hs) as H.
  split_and!.
  - by rewrite (residents_holds _ _ H).
  - by apply holds_display.
  - destruct s as [this h]. cbn [Cpp.call fst snd].
    rewrite get_miss_spec; [done|].
    by apply (holds_lookup_None (this, h) []).
  - destruct (sim_put s [] k v H) as (s' & Hrun & _).
    exists s'. split; [done|].
    assert (Hs' : Cpp.reachable 0 s') by by econstructor.
    by rewrite (residents_holds _ _ (Hempty s' Hs')).
Qed.

Lemma X8_witness :
  Cpp.reachable 0 (Cpp.after 0 [Put 1 10; Get 1]) /\
  Cpp.residents (Cpp.after 0 [Put 1 10; Get 1]) = ∅ /\
  Cpp.display (Cpp.after 0 [Put 1 10; Get 1]).1
              (Cpp.after 0 [Put 1 10; Get 1]).2
    = Some ([], (Cpp.after 0 [Put 1 10; Get 1]).2) /\
  Cpp.call (Get 1) (Cpp.after 0 [Put 1 10; Get 1])
    = Some (Some (-1), Cpp.after 0 [Put 1 10; Get 1]) /\
  exists s', Cpp.call (Put 1 20) (Cpp.after 0 [Put 1 10; Get 1])
             = Some (None, s') /\ Cpp.residents s' = ∅.
Proof.
  assert (H : Cpp.reachable 0 (Cpp.after 0 [Put 1 10; Get 1]))
    by apply after_reachable.
  split; [exact H|]. exact (X8_cpp_capacity_zero_stays_empty _ 1 20 H).
Defined.

End CppOrder.

(** ** The nodes on the heap: no leak, no dangling pointer, and the
       destructor *)

Module CppHygiene.
Import Cpp Recency CppHeap CppRecency.

Lemma bind_inv {A B} (m : M A) (f : A -> M B) h b h' :
  (m ≫= f) h = Some (b, h') ->
  exists a h1, m h = Some (a, h1) /\ f a h1 = Some (b, h').
Proof.
  unfold mbind, M_bind, bind. destruct (m h) as [[a h1]|]; [eauto | done].
Qed.

Lemma get_fld_inv {A} (g : Node -> A) h p x h' :
  (n ← load p; ret (g n)) h = Some (x, h') -> h' = h /\ fld g h p = Some x.
Proof.
  intros (n & h1 & Hl & Hr)%bind_inv. unfold load in Hl. unfold fld.
  destruct (cells h !! p) as [n'|]; [|done].
  injection Hl as <- <-. by injection Hr as <- <-.
Qed.

Lemma modify_inv f p h u h' : modify f p h = Some (u, h') -> h' = upd f p h.
Proof.
  unfold modify. destruct (cells h !! p); [|done]. by intros [= _ <-].
Qed.

(** What the private helpers leave alone. *)
Lemma removeNode_footprint node h h' :
  removeNode node h = Some (tt, h') ->
  exists a, fld prev h node = Some a /\ same_data h h' /\
            forall x, x <> a -> fld next h' x = fld next h x.
Proof.
  unfold removeNode.
  intros (a & h1 & [-> Ha]%get_fld_inv & H1)%bind_inv.
  apply bind_inv in H1 as (b & h2 & [-> Hb]%get_fld_inv & H2).
  apply bind_inv in H2 as (u & h3 & ->%modify_inv & ->%modify_inv).
  exists a. split_and!; [done | |].
  - eapply same_data_trans; [apply same_data_upd_next|].
    apply same_data_upd_prev.
  - intros x Hx. rewrite fld_upd_inv by done. by rewrite fld_upd_ne.
Qed.

Lemma addNode_footprint this node h h' :
  addNode this node h = Some (tt, h') ->
  same_data h h' /\
  forall x, x <> node -> x <> head this -> fld next h' x = fld next h x.
Proof.
  unfold addNode.
  intros (u1 & h1 & ->%modify_inv & H1)%bind_inv.
  apply bind_inv in H1 as (hn & h2 & [-> _]%get_fld_inv & H2).
  apply bind_inv in H2 as (u2 & h3 & ->%modify_inv & H3).
  apply bind_inv in H3 as (hn' & h4 & [-> _]%get_fld_inv & H4).
  apply bind_inv in H4 as (u3 & h5 & ->%modify_inv & ->%modify_inv).
  split.
  - eapply same_data_trans; [apply same_data_upd_prev|].
    eapply same_data_trans; [apply same_data_upd_next|].
    eapply same_data_trans; [apply same_data_upd_prev|].
    apply same_data_upd_next.
  - intros x Hx1 Hx2. rewrite fld_upd_ne by done.
    rewrite fld_upd_inv by done. rewrite fld_upd_ne by done.
    by rewrite fld_upd_inv.
Qed.

Lemma moveToHead_footprint this node h h' :
  moveToHead this node h = Some (tt, h') ->
  exists a, fld prev h node = Some a /\ same_data h h' /\
            forall x, x <> a -> x <> node -> x <> head this ->
                      fld next h' x = fld next h x.
Proof.
  unfold moveToHead. intros ([] & h1 & Hr & Ha)%bind_inv.
  apply removeNode_footprint in Hr as (a & Hp & Hsd1 & Hn1).
  apply addNode_footprint in Ha as (Hsd2 & Hn2).
  exists a. split_and!; [done | by eapply same_data_trans |].
  intros x ? ? ?. rewrite Hn2 by done. by apply Hn1.
Qed.

Lemma popTail_footprint this h node h' :
  popTail this h = Some (node, h') ->
  exists a, fld prev h node = Some a /\ same_data h h' /\
            forall x, x <> a -> fld next h' x = fld next h x.
Proof.
  unfold popTail.
  intros (n & h1 & [-> _]%get_fld_inv & H1)%bind_inv.
  apply bind_inv in H1 as ([] & h2 & Hr & [= <- <-]).
  by apply removeNode_footprint.
Qed.

Lemma same_data_dom h h' : same_data h h' -> dom (cells h') = dom (cells h).
Proof.
  intros Hsd. apply set_eq. intros x. rewrite !elem_of_dom.
  apply (same_data_allocated h h' x Hsd).
Qed.

(** The predecessor of a resident node is never [tail]. *)
Lemma repr_prev_not_tail this h ns p a :
  repr this h ns -> p ∈ ns.*1 -> fld prev h p = Some a -> a <> tail this.
Proof.
  intros R Hin Hp.
  pose proof (repr_nodup _ _ _ R) as Hnd.
  pose proof (repr_linked _ _ _ R) as Hl.
  apply list_elem_of_split in Hin as (c1 & c2 & E). rewrite E in Hnd, Hl.
  destruct (exists_last (l := head this :: c1)) as (c0 & a' & E0); [done|].
  rewrite <- app_assoc, <- app_comm_cons, app_comm_cons, E0 in Hnd, Hl.
  rewrite <- app_assoc in Hnd, Hl. cbn [app] in Hnd, Hl.
  apply linked_app_inv in Hl as [_ (_ & Hp' & _)%linked_cons].
  rewrite Hp in Hp'. injection Hp' as ->.
  apply NoDup_app in Hnd as (_ & _ & Hnd).
  apply NoDup_cons in Hnd as [Ha _]. intros ->. apply Ha.
  right. apply elem_of_app. right. by apply list_elem_of_singleton.
Qed.

Lemma set_perm (l k : list N) :
  l ≡ₚ k -> list_to_set l =@{gset N} list_to_set k.
Proof.
  intros Hp. apply set_eq. intros x.
  rewrite !elem_of_list_to_set. by rewrite Hp.
Qed.

Lemma tidy_tail_distinct this h ns :
  repr this h ns ->
  tail this <> head this /\ (tail this ∉ ns.*1) /\ allocated h (tail this).
Proof.
  intros R. pose proof (repr_nodup _ _ _ R) as Hnd.
  apply NoDup_cons in Hnd as [Hh Hnd].
  apply NoDup_app in Hnd as (_ & Hd & _). split_and!.
  - intros E. apply Hh. rewrite <- E. set_solver.
  - intros Hin. apply (Hd _ Hin). by left.
  - eapply repr_chain_allocated; [done|]. set_solver.
Qed.

(** A reordering of the chain by pointer surgery keeps the heap tidy. *)
Lemma tidy_move this h h' ns ns' :
  tidy this h ns -> repr this h' ns' -> ns' ≡ₚ ns ->
  nextblock h' = nextblock h -> dom (cells h') = dom (cells h) ->
  fld next h' (tail this) = fld next h (tail this) ->
  tidy this h' ns'.
Proof.
  intros T R' Hp Hnb Hdom Hnext. split.
  - done.
  - rewrite Hnext. apply (tidy_tail _ _ _ T).
  - unfold allocated. rewrite <- elem_of_dom, Hdom, elem_of_dom.
    apply (tidy_null _ _ _ T).
  - rewrite Hnb. apply (tidy_pos _ _ _ T).
  - rewrite Hdom, (tidy_dom _ _ _ T). apply set_perm.
    by rewrite Hp.
Qed.

Lemma get_hit_tidy this h n1 p k v n2 :
  tidy this h (n1 ++ (p, (k, v)) :: n2) ->
  exists h', get this k h = Some ((v, this), h') /\
             tidy this h' ((p, (k, v)) :: n1 ++ n2).
Proof.
  intros T. pose proof (tidy_repr _ _ _ T) as R.
  destruct (get_hit_spec _ _ _ _ _ _ _ R) as (h' & Hrun & R').
  exists h'. split; [done|].
  assert (Hc : cache this !! k = Some p).
  { apply (repr_index this h _ p k v R). set_solver. }
  unfold get in Hrun. rewrite Hc in Hrun.
  apply bind_inv in Hrun as ([] & h1 & Hm & Hv).
  apply bind_inv in Hv as (v' & h2 & [-> _]%get_fld_inv & [= _ <-]).
  apply moveToHead_footprint in Hm as (a & Hprev & Hsd & Hnext).
  destruct (tidy_tail_distinct _ _ _ R) as (Hth & Htn & _).
  eapply tidy_move; [done | done | apply Permutation_middle
                     | apply Hsd | by apply same_data_dom |].
  apply Hnext; [|intros E; apply Htn; rewrite E, fmap_app; set_solver|done].
  intros E. eapply (repr_prev_not_tail this h); [done | | done | done].
  rewrite fmap_app. set_solver.
Qed.

Lemma put_hit_tidy this h n1 p k v0 v n2 :
  tidy this h (n1 ++ (p, (k, v0)) :: n2) ->
  exists h', put this k v h = Some (this, h') /\
             tidy this h' ((p, (k, v)) :: n1 ++ n2).
Proof.
  intros T. pose proof (tidy_repr _ _ _ T) as R.
  destruct (put_hit_spec _ _ _ _ _ _ v _ R) as (h' & Hrun & R').
  exists h'. split; [done|].
  assert (Hc : cache this !! k = Some p).
  { apply (repr_index this h _ p k v0 R). set_solver. }
  pose proof (repr_set_value _ _ _ _ _ _ v _ R) as R0.
  unfold put in Hrun. rewrite Hc in Hrun.
  apply bind_inv in Hrun as ([] & h0 & ->%modify_inv & Hm).
  apply bind_inv in Hm as ([] & h1 & Hm & [= <-]).
  apply moveToHead_footprint in Hm as (a & Hprev & Hsd & Hnext).
  destruct (tidy_tail_distinct _ _ _ R) as (Hth & Htn & _).
  split.
  - done.
  - rewrite Hnext; [rewrite fld_upd_inv by done; apply (tidy_tail _ _ _ T)
                   | | |done].
    + intros E. eapply (repr_prev_not_tail this _ _ p); [exact R0 | | done | done].
      rewrite fmap_app. set_solver.
    + intros E. apply Htn. rewrite E, fmap_app. set_solver.
  - intros Ha. apply (same_data_allocated _ _ _ Hsd) in Ha.
    apply allocated_upd in Ha. by apply (tidy_null _ _ _ T).
  - rewrite (proj1 Hsd). apply (tidy_pos _ _ _ T).
  - rewrite (same_data_dom _ _ Hsd).
    assert (Hd : dom (cells (upd (with_value v) p h)) = dom (cells h)).
    { apply set_eq. intros x. rewrite !elem_of_dom. apply allocated_upd. }
    rewrite Hd, (tidy_dom _ _ _ T). apply set_perm.
    apply perm_skip, Permutation_app_tail.
    rewrite fmap_cons, !fmap_app, fmap_cons. cbn [fst].
    symmetry. apply Permutation_middle.
Qed.

Lemma dom_alloc n h : dom (cells (alloc n h)) = {[nextblock h]} ∪ dom (cells h).
Proof. unfold alloc; simpl. apply dom_insert_L. Qed.

Lemma dom_free p h : dom (cells (free p h)) = dom (cells h) ∖ {[p]}.
Proof. unfold free; simpl. apply dom_delete_L. Qed.

Lemma tidy_insert this h ns k v :
  tidy this h ns -> k ∉ ns.*2.*1 ->
  exists h',
    addNode this (nextblock h) (alloc (Node_ctor k v) h) = Some (tt, h') /\
    tidy (with_cache (<[k := nextblock h]> (cache this)) this) h'
         ((nextblock h, (k, v)) :: ns).
Proof.
  intros T Hk. pose proof (tidy_repr _ _ _ T) as R.
  destruct (put_insert_spec this h ns k v R Hk) as (h' & Hrun & R').
  exists h'. split; [done|].
  destruct (tidy_tail_distinct _ _ _ R) as (Hth & Htn & Hta).
  assert (Htp : tail this <> nextblock h).
  { intros E. eapply bounded_fresh; [apply (repr_bound _ _ _ R)|].
    by rewrite <- E. }
  apply addNode_footprint in Hrun as (Hsd & Hnext).
  split; cbn [head tail with_cache].
  - done.
  - rewrite Hnext by done. rewrite fld_alloc_ne by done.
    apply (tidy_tail _ _ _ T).
  - intros Ha. apply (same_data_allocated _ _ _ Hsd) in Ha.
    apply allocated_alloc in Ha as [E|Ha].
    + pose proof (tidy_pos _ _ _ T) as Hpos. unfold nullptr in E. lia.
    + by apply (tidy_null _ _ _ T).
  - rewrite (proj1 Hsd). simpl. lia.
  - rewrite (same_data_dom _ _ Hsd), dom_alloc, (tidy_dom _ _ _ T).
    rewrite fmap_cons. cbn [fst]. rewrite !list_to_set_cons. set_solver.
Qed.

Lemma tidy_evict this h ns e :
  tidy this h (ns ++ [e]) ->
  exists h1,
    popTail this h = Some (e.1, h1) /\
    get_key e.1 h1 = Some (e.2.1, h1) /\
    delete_Node e.1 h1 = Some (tt, free e.1 h1) /\
    tidy (with_cache (delete e.2.1 (cache this)) this) (free e.1 h1) ns.
Proof.
  intros T. pose proof (tidy_repr _ _ _ T) as R.
  destruct (evict_spec _ _ _ _ R) as (h1 & Hpop & Hkey & Hdel & R').
  exists h1. split_and!; [done..|].
  destruct (tidy_tail_distinct _ _ _ R) as (Hth & Htn & Hta).
  pose proof (repr_nodup _ _ _ R) as Hnd.
  assert (He : e.1 ∈ (ns ++ [e]).*1) by (rewrite fmap_app; set_solver).
  assert (Hte : tail this <> e.1) by (intros E; apply Htn; by rewrite E).
  apply popTail_footprint in Hpop as (a & Hprev & Hsd & Hnext).
  split; cbn [head tail with_cache].
  - done.
  - rewrite fld_free_ne by done. rewrite Hnext; [apply (tidy_tail _ _ _ T)|].
    intros E. by eapply (repr_prev_not_tail this h).
  - intros [_ Ha]%allocated_free.
    apply (same_data_allocated _ _ _ Hsd) in Ha.
    by apply (tidy_null _ _ _ T).
  - simpl. rewrite (proj1 Hsd). apply (tidy_pos _ _ _ T).
  - rewrite dom_free, (same_data_dom _ _ Hsd), (tidy_dom _ _ _ T).
    rewrite fmap_app in Hnd |- *. cbn [fmap list_fmap] in Hnd |- *.
    apply NoDup_cons in Hnd as [Hh Hnd].
    rewrite <- app_assoc in Hnd. apply NoDup_app in Hnd as (_ & Hd & Hnd2).
    apply NoDup_cons in Hnd2 as [Het _].
    rewrite !list_to_set_cons, !list_to_set_app_L, !list_to_set_cons.
    rewrite list_to_set_nil.
    assert (Heh : e.1 <> head this)
      by (intros E; apply Hh; rewrite <- E; set_solver).
    assert (Hen : e.1 ∉ ns.*1) by (intros Hin; apply (Hd _ Hin); by left).
    clear -Heh Hen Hte. set_solver.
Qed.

Lemma put_new_tidy this h ns k v :
  tidy this h ns -> k ∉ ns.*2.*1 ->
  exists this' h' ns', put this k v h = Some (this', h') /\ tidy this' h' ns'.
Proof.
  intros T Hk. pose proof (tidy_repr _ _ _ T) as R.
  assert (Hc : cache this !! k = None).
  { rewrite (repr_cache _ _ _ R). by apply index_of_lookup_None. }
  destruct (tidy_insert this h ns k v T Hk) as (h1 & Hrun1 & T1).
  unfold put. rewrite Hc.
  erewrite bind_run by reflexivity. cbv beta zeta.
  erewrite bind_run by exact Hrun1.
  case_bool_decide as Hcmp.
  - destruct (exists_last (l := (nextblock h, (k, v)) :: ns))
      as (ns' & e & Heq); [done|].
    rewrite Heq in T1.
    destruct (tidy_evict _ _ _ _ T1) as (h2 & Hpop & Hkey & Hdel & T2).
    eexists _, _, ns'. split; [|exact T2].
    change (popTail this) with
      (popTail (with_cache (<[k := nextblock h]> (cache this)) this)).
    erewrite bind_run by exact Hpop.
    erewrite bind_run by exact Hkey.
    erewrite bind_run by exact Hdel. reflexivity.
  - eexists _, _, _. split; [reflexivity | exact T1].
Qed.

Lemma entries_key_split (ns : list entry) k :
  k ∈ ns.*2.*1 -> exists n1 p v n2, ns = n1 ++ (p, (k, v)) :: n2.
Proof.
  intros ([k' v] & Hk & ([p kv] & Hkv & Hin)%list_elem_of_fmap)%list_elem_of_fmap.
  simpl in *. subst. apply list_elem_of_split in Hin as (n1 & n2 & ->).
  by exists n1, p, v, n2.
Qed.

Lemma call_tidy o s r s' :
  (exists ns, tidy s.1 s.2 ns) -> call o s = Some (r, s') ->
  exists ns', tidy s'.1 s'.2 ns'.
Proof.
  intros (ns & T) Hcall. destruct s as [this h]. cbn [fst snd] in *.
  pose proof (tidy_repr _ _ _ T) as R.
  destruct o as [k|k v]; cbn [call fst snd] in Hcall.
  - destruct (decide (k ∈ ns.*2.*1)) as [Hin|Hni].
    + apply entries_key_split in Hin as (n1 & p & v & n2 & ->).
      destruct (get_hit_tidy _ _ _ _ _ _ _ T) as (h' & Hrun & T').
      rewrite Hrun in Hcall. injection Hcall as _ <-. eauto.
    + rewrite get_miss_spec in Hcall.
      * injection Hcall as _ <-. eauto.
      * rewrite (repr_cache _ _ _ R). by apply index_of_lookup_None.
  - destruct (decide (k ∈ ns.*2.*1)) as [Hin|Hni].
    + apply entries_key_split in Hin as (n1 & p & v0 & n2 & ->).
      destruct (put_hit_tidy _ _ _ _ _ _ v _ T) as (h' & Hrun & T').
      rewrite Hrun in Hcall. injection Hcall as _ <-. eauto.
    + destruct (put_new_tidy _ _ _ k v T Hni) as (this' & h' & ns' & Hrun & T').
      rewrite Hrun in Hcall. injection Hcall as _ <-. eauto.
Qed.

Lemma init_tidy c : tidy (init c).1 (init c).2 [].
Proof.
  destruct (LRUCache_ctor_spec c) as (this & h & Hrun & R & _).
  rewrite ctor_init in Hrun. injection Hrun as <- <-.
  split.
  - done.
  - reflexivity.
  - intros [n Hn]. vm_compute in Hn. discriminate.
  - reflexivity.
  - vm_compute. reflexivity.
Qed.

Lemma index_entry (ns : list entry) p k :
  index_of ns !! k = Some p -> exists v, (p, (k, v)) ∈ ns.
Proof.
  intros Hin%elem_of_list_to_map_2.
  apply list_elem_of_fmap in Hin as ([p' [k' v]] & [= -> ->] & Hin).
  by exists v.
Qed.

(** The destructor's loop along a chain that ends in [nullptr]. *)
Lemma destroy_chain (chain : list N) : forall h fuel,
  chain <> [] -> NoDup chain -> nullptr ∉ chain -> linked h chain ->
  (forall a, last chain = Some a -> fld next h a = Some nullptr) ->
  (forall x, x ∈ chain -> allocated h x) -> (length chain < fuel)%nat ->
  exists h',
    destroy fuel (List.hd nullptr chain) h = Some (tt, h') /\
    dom (cells h') = dom (cells h) ∖ list_to_set chain.
Proof.
  induction chain as [|a chain IH]; intros h fuel Hne Hnd Hnull Hl Hlast Hal Hf;
    [done|].
  destruct fuel as [|fuel]; [simpl in Hf; lia|].
  apply NoDup_cons in Hnd as [Ha Hnd].
  apply not_elem_of_cons in Hnull as [Han Hnull].
  assert (Haa : allocated h a) by (apply Hal; by left).
  cbn [List.hd destroy]. rewrite bool_decide_false by done.
  destruct chain as [|b chain].
  - destruct fuel as [|fuel]; [simpl in Hf; lia|].
    erewrite bind_run by (apply get_next_run, Hlast; reflexivity).
    erewrite bind_run by by apply modify_run_free.
    cbn [destroy]. rewrite bool_decide_true by done.
    eexists. split; [reflexivity|].
    rewrite dom_free, list_to_set_singleton_L. done.
  - apply linked_cons in Hl as (Hn & _ & Hl).
    erewrite bind_run by by apply get_next_run.
    erewrite bind_run by by apply modify_run_free.
    destruct (IH (free a h) fuel) as (h' & Hrun & Hdom).
    + done.
    + done.
    + done.
    + eapply linked_ext; [|done]. intros x Hx.
      rewrite !fld_free_ne; [done|..]; intros ->; done.
    + intros l Hl'. rewrite fld_free_ne.
      * apply Hlast. by rewrite last_cons, Hl'.
      * intros ->. apply Ha. by apply last_Some_elem_of.
    + intros x Hx. apply allocated_free. split.
      * intros ->. done.
      * apply Hal. by right.
    + simpl in *. lia.
    + exists h'. split; [exact Hrun|].
      rewrite Hdom, dom_free, (list_to_set_cons a). set_solver.
Qed.

Lemma reachable_tidy c s : reachable c s -> exists ns, tidy s.1 s.2 ns.
Proof.
  induction 1 as [s Hs | s o r s' _ IH Hcall].
  - rewrite ctor_init in Hs. injection Hs as <-. exists []. apply init_tidy.
  - by eapply call_tidy.
Qed.

End CppHygiene.

Section CppHeapUse.
Import Recency CppHeap CppRecency CppHygiene.

(** X9. The heap of every reachable state holds the two dummy nodes and
    one node per resident key, nothing else.  The hash map never holds a
    dangling pointer: the node a key maps to is allocated and carries that
    key.  No node is leaked: every allocated node is [head], [tail] or the
    node of a resident key, so an evicted node has been deleted. *)
Theorem X9_cpp_heap_holds_resident_nodes_only (c : Z) (s : Cpp.state) :
  Cpp.reachable c s ->
  size (Cpp.cells s.2) = (Cpp.count s + 2)%nat /\
  (forall k p, Cpp.cache s.1 !! k = Some p ->
               Cpp.allocated s.2 p /\ Cpp.fld Cpp.key s.2 p = Some k) /\
  (forall p, Cpp.allocated s.2 p ->
             p = Cpp.head s.1 \/ p = Cpp.tail s.1 \/
             exists k, Cpp.cache s.1 !! k = Some p).
Proof.
  intros (ns & T)%reachable_tidy.
  pose proof (Cpp.tidy_repr _ _ _ T) as R.
  pose proof (Cpp.repr_nodup _ _ _ R) as Hnd.
  split_and!.
  - rewrite <- size_dom, (Cpp.tidy_dom _ _ _ T).
    rewrite size_list_to_set by done. unfold Cpp.count.
    rewrite (Cpp.repr_cache _ _ _ R), index_of_size
      by apply (Cpp.repr_keys _ _ _ R).
    rewrite length_cons, length_app, length_fmap.
    unfold Cpp.entry. simpl. lia.
  - intros k p Hc. rewrite (Cpp.repr_cache _ _ _ R) in Hc.
    apply index_entry in Hc as (v & Hin). split.
    + eapply repr_chain_allocated; [done|].
      right. apply elem_of_app. left.
      apply list_elem_of_fmap. by exists (p, (k, v)).
    + pose proof (Cpp.repr_fields _ _ _ R) as HF.
      rewrite Forall_forall in HF. by destruct (HF _ Hin).
  - intros p Hp. unfold Cpp.allocated in Hp.
    rewrite <- elem_of_dom, (Cpp.tidy_dom _ _ _ T) in Hp.
    apply elem_of_list_to_set in Hp.
    apply elem_of_cons in Hp as [->|Hp]; [by left|].
    apply elem_of_app in Hp as [Hp|Hp].
    + right; right.
      apply list_elem_of_fmap in Hp as ([p' [k v]] & -> & Hin).
      exists k. by eapply repr_index.
    + right; left. by apply list_elem_of_singleton in Hp.
Qed.

Lemma X9_witness :
  Cpp.reachable 2 (Cpp.after 2 scenario) /\
  size (Cpp.cells (Cpp.after 2 scenario).2)
    = (Cpp.count (Cpp.after 2 scenario) + 2)%nat /\
  (forall k p, Cpp.cache (Cpp.after 2 scenario).1 !! k = Some p ->
               Cpp.allocated (Cpp.after 2 scenario).2 p /\
               Cpp.fld Cpp.key (Cpp.after 2 scenario).2 p = Some k) /\
  (forall p, Cpp.allocated (Cpp.after 2 scenario).2 p ->
             p = Cpp.head (Cpp.after 2 scenario).1 \/
             p = Cpp.tail (Cpp.after 2 scenario).1 \/
             exists k, Cpp.cache (Cpp.after 2 scenario).1 !! k = Some p).
Proof.
  assert (H : Cpp.reachable 2 (Cpp.after 2 scenario))
    by apply after_reachable.
  split; [exact H|]. exact (X9_cpp_heap_holds_resident_nodes_only 2 _ H).
Defined.

(** X10. The destructor, run in any reachable state, walks from [head] to
    [tail], deletes every node exactly once and stops at [nullptr]: it
    never dereferences or deletes an address that is not allocated, and it
    leaves no node on the heap. *)
Theorem X10_cpp_destructor_frees_every_node (c : Z) (s : Cpp.state) :
  Cpp.reachable c s ->
  exists h', Cpp.LRUCache_dtor s.1 s.2 = Some (tt, h') /\ Cpp.cells h' = ∅.
Proof.
  intros (ns & T)%reachable_tidy.
  pose proof (Cpp.tidy_repr _ _ _ T) as R.
  pose proof (Cpp.repr_nodup _ _ _ R) as Hnd.
  assert (Hal : forall x, x ∈ Cpp.head s.1 :: ns.*1 ++ [Cpp.tail s.1] ->
                          Cpp.allocated s.2 x).
  { intros x Hx. by eapply repr_chain_allocated. }
  destruct (destroy_chain (Cpp.head s.1 :: ns.*1 ++ [Cpp.tail s.1]) s.2
              (S (size (Cpp.cells s.2)))) as (h' & Hrun & Hdom).
  - done.
  - done.
  - intros Hin. apply (Cpp.tidy_null _ _ _ T). by apply Hal.
  - apply (Cpp.repr_linked _ _ _ R).
  - intros a Ha. rewrite app_comm_cons, last_snoc in Ha.
    injection Ha as <-. apply (Cpp.tidy_tail _ _ _ T).
  - done.
  - pose proof (chain_size _ _ Hnd Hal). lia.
  - exists h'. split; [exact Hrun|].
    apply dom_empty_inv_L. rewrite Hdom, (Cpp.tidy_dom _ _ _ T). set_solver.
Qed.

Lemma X10_witness :
  Cpp.reachable 2 (Cpp.after 2 scenario) /\
  exists h',
    Cpp.LRUCache_dtor (Cpp.after 2 scenario).1 (Cpp.after 2 scenario).2
      = Some (tt, h') /\ Cpp.cells h' = ∅.
Proof.
  assert (H : Cpp.reachable 2 (Cpp.after 2 scenario))
    by apply after_reachable.
  split; [exact H|]. exact (X10_cpp_destructor_frees_every_node 2 _ H).
Defined.

End CppHeapUse.

(** ** More on the TypeScript class *)

Section TsOrder.
Import TSFacts.
Context {K V : Type} `{EqDecision K}.
Implicit Types (t : TS.LRUCache K V) (k : K) (v : V) (m : list (K * V)).

(** X11. get(k) on a key that is present returns its value and moves the
    entry to the end of the map (the most recently used place): the
    entries before and after it keep their order. *)
Theorem X11_ts_get_hit_moves_to_end (c : Z) t m1 m2 k v :
  TS.reachable c t -> TS.cache t = m1 ++ (k, v) :: m2 ->
  TS.get t k = (Some v, TS.with_cache (m1 ++ m2 ++ [(k, v)]) t).
Proof.
  intros Ht E. apply get_hit; [done|]. by eapply reachable_nodup.
Qed.

(** X12. put(k, v) of a key that is not present, when the map already has
    [capacity] entries or more and is not empty, deletes exactly the
    first entry of the map, the least recently used one, and appends
    (k, v): no other entry is removed and the order of the rest is kept. *)
Theorem X12_ts_put_new_evicts_oldest (c : Z) t m ko vo k v :
  TS.reachable c t -> TS.cache t = (ko, vo) :: m ->
  k ∉ TS.keys t -> c <= Z.of_nat (TS.map_size (TS.cache t)) ->
  TS.put t k v = TS.with_cache (m ++ [(k, v)]) t.
Proof.
  intros Ht E Hk Hc.
  rewrite put_new_full; [by rewrite E | done |].
  by rewrite (reachable_capacity _ _ Ht).
Qed.

(** X13. put(k, v) of a key that is not present, while the map has fewer
    than [capacity] entries, appends (k, v) and removes nothing. *)
Theorem X13_ts_put_new_with_room (c : Z) t k v :
  TS.reachable c t ->
  k ∉ TS.keys t -> Z.of_nat (TS.map_size (TS.cache t)) < c ->
  TS.put t k v = TS.with_cache (TS.cache t ++ [(k, v)]) t.
Proof.
  intros Ht Hk Hc. apply put_new_room; [done|].
  by rewrite (reachable_capacity _ _ Ht).
Qed.

(** X14. put(k, v) followed by get(k) returns v for every capacity, 0 and
    negative ones included: put ends with [cache.set(key, value)] on every
    path, so the entry it writes is always the last of the map. *)
Theorem X14_ts_put_then_get (c : Z) t k v :
  TS.reachable c t ->
  last (TS.cache (TS.put t k v)) = Some (k, v) /\
  (TS.get (TS.put t k v) k).1 = Some v.
Proof.
  intros Ht. pose proof (reachable_nodup _ _ Ht) as Hnd.
  assert (Hnd' : NoDup (TS.keys (TS.put t k v))) by by apply put_nodup.
  assert (Hlast : exists m, TS.cache (TS.put t k v) = m ++ [(k, v)]).
  { destruct (put_cases t k v Hnd)
      as [(m1 & v0 & m2 & E & ->)|[(Hk & _ & ->)|(Hk & _ & ->)]];
      cbn [TS.cache TS.with_cache]; [|eauto..].
    exists (m1 ++ m2). by rewrite <- app_assoc. }
  destruct Hlast as (m & Em). split.
  - by rewrite Em, last_snoc.
  - by erewrite (get_hit _ k v m []).
Qed.

(** X15. The size bound of the TypeScript class for integer capacities
    (the capacity of the embedding is an integer; the constructor's
    [number] may also be a fraction, which this does not cover): for every
    integer capacity c, in every reachable state the map has at most
    max(c, 1) entries.  For an integer capacity of at least one that is the
    capacity; for capacity 0 or a negative integer capacity the map still
    holds up to one entry. *)
Theorem X15_ts_size_bound (c : Z) t :
  TS.reachable c t -> Z.of_nat (TS.map_size (TS.cache t)) <= Z.max c 1.
Proof.
  induction 1 as [|t o Hr IH]; [simpl; lia|].
  pose proof (reachable_nodup _ _ Hr) as Hnd.
  pose proof (reachable_capacity _ _ Hr) as Hcap.
  unfold TS.map_size in *. destruct o as [k|k v]; unfold TS.call.
  - destruct (get_cases t k Hnd) as [[_ ->]|(m1 & v & m2 & E & ->)]; [done|].
    cbn [snd TS.cache TS.with_cache]. rewrite E in IH.
    rewrite !length_app in *. simpl in *. lia.
  - destruct (put_cases t k v Hnd)
      as [(m1 & v0 & m2 & E & ->)|[(Hk & Hlt & ->)|(Hk & _ & ->)]];
      cbn [snd TS.cache TS.with_cache].
    + rewrite E in IH. rewrite !length_app in *. simpl in *. lia.
    + unfold TS.map_size in Hlt. rewrite length_app. simpl. lia.
    + rewrite length_app. simpl. destruct (TS.cache t); simpl in *; lia.
Qed.

(** X16. A call on key k never touches the entry of another key: every
    entry (k', v') with k' different from k that the map holds after a
    get(k) or a put(k, v) was in the map, with the same value, before. *)
Theorem X16_ts_other_entries_untouched (c : Z) t (o : op K V) k' (v' : V) :
  TS.reachable c t -> k' <> op_key o ->
  (k', v') ∈ TS.cache (TS.call o t).2 -> (k', v') ∈ TS.cache t.
Proof.
  intros Ht Hk. pose proof (reachable_nodup _ _ Ht) as Hnd.
  destruct o as [k|k v]; unfold TS.call; cbn [op_key] in Hk.
  - destruct (get_cases t k Hnd) as [[_ ->]|(m1 & v & m2 & E & ->)]; [done|].
    cbn [snd TS.cache TS.with_cache]. rewrite E. set_solver.
  - destruct (put_cases t k v Hnd)
      as [(m1 & v0 & m2 & E & ->)|[(_ & _ & ->)|(_ & _ & ->)]];
      cbn [snd TS.cache TS.with_cache].
    + rewrite E. set_solver.
    + set_solver.
    + intros [Hin|Hin]%elem_of_app; [|set_solver].
      destruct (TS.cache t); [done|]. by right.
Qed.

(** X17. For the TypeScript class every capacity below one acts as
    capacity 1: with c <= 1 every sequence of calls returns what it
    returns on a cache of capacity 1 and leaves the same map. *)
Theorem X17_ts_capacity_below_one_acts_as_one (c : Z) (os : list (op K V)) :
  c <= 1 ->
  (TS.session c os).1 = (TS.session 1 os).1 /\
  TS.cache (TS.session c os).2 = TS.cache (TS.session 1 os).2.
Proof.
  intros Hc. unfold TS.session.
  assert (Hgen : forall t t1,
             TS.capacity t <= 1 -> TS.capacity t1 = 1 ->
             TS.cache t = TS.cache t1 ->
             (TS.calls os t).1 = (TS.calls os t1).1 /\
             TS.cache (TS.calls os t).2 = TS.cache (TS.calls os t1).2).
  { induction os as [|o os IH]; intros t t1 Hcap Hcap1 E; [done|].
    assert (Hstep : (TS.call o t).1 = (TS.call o t1).1 /\
                    TS.cache (TS.call o t).2 = TS.cache (TS.call o t1).2 /\
                    TS.capacity (TS.call o t).2 <= 1 /\
                    TS.capacity (TS.call o t1).2 = 1).
    { rewrite !call_capacity. split_and!; [| |done..].
      - destruct o as [k|k v]; [|done]. unfold TS.call, TS.get.
        rewrite E. destruct (negb _); [done|].
        by destruct (TS.map_get k (TS.cache t1)).
      - destruct o as [k|k v]; unfold TS.call.
        + unfold TS.get. rewrite E. destruct (negb _); [done|].
          by destruct (TS.map_get k (TS.cache t1)).
        + unfold TS.put. rewrite E, Hcap1. cbn [snd TS.cache TS.with_cache].
          destruct (TS.map_has k (TS.cache t1)); [done|].
          unfold TS.map_size.
          destruct (TS.cache t1) as [|[k0 v0] m]; simpl.
          * by case_bool_decide.
          * rewrite !bool_decide_true by lia. done. }
    destruct Hstep as (Hr & Hc' & Hcap' & Hcap1').
    cbn [TS.calls].
    destruct (TS.call o t) as [r t'], (TS.call o t1) as [r1 t1'].
    cbn [fst snd] in *. subst r1.
    destruct (IH t' t1' Hcap' Hcap1' Hc') as [Hrs Hfin].
    destruct (TS.calls os t') as [rs t''], (TS.calls os t1') as [rs1 t1''].
    cbn [fst snd] in *. by subst. }
  by apply Hgen.
Qed.

End TsOrder.

Section TsOrderWitnesses.
Import TSFacts.

Lemma X11_witness :
  TS.reachable 3 (TS.session 3 (take 3 ts_example)).2 /\
  TS.cache (TS.session 3 (take 3 ts_example)).2
    = [] ++ ("a"%string, 1) :: [("b"%string, 2); ("c"%string, 3)] /\
  TS.get (TS.session 3 (take 3 ts_example)).2 "a"%string
    = (Some 1,
       TS.with_cache ([] ++ [("b"%string, 2); ("c"%string, 3)] ++ [("a"%string, 1)])
                     (TS.session 3 (take 3 ts_example)).2).
Proof.
  assert (H1 : TS.reachable 3 (TS.session 3 (take 3 ts_example)).2)
    by apply session_reachable.
  assert (H2 : TS.cache (TS.session 3 (take 3 ts_example)).2
               = [] ++ ("a"%string, 1) :: [("b"%string, 2); ("c"%string, 3)])
    by (vm_compute; reflexivity).
  split; [exact H1|]. split; [exact H2|].
  exact (X11_ts_get_hit_moves_to_end 3 _ [] _ "a"%string 1 H1 H2).
Defined.

Lemma X12_witness :
  TS.reachable 3 (TS.session 3 ts_example).2 /\
  TS.cache (TS.session 3 ts_example).2 = ("b"%string, 2) :: [("c"%string, 3); ("a"%string, 1)] /\
  ("d"%string ∉ TS.keys (TS.session 3 ts_example).2) /\
  3 <= Z.of_nat (TS.map_size (TS.cache (TS.session 3 ts_example).2)) /\
  TS.put (TS.session 3 ts_example).2 "d"%string 4
    = TS.with_cache ([("c"%string, 3); ("a"%string, 1)] ++ [("d"%string, 4)])
                    (TS.session 3 ts_example).2.
Proof.
  assert (H1 : TS.reachable 3 (TS.session 3 ts_example).2)
    by apply session_reachable.
  assert (H2 : TS.cache (TS.session 3 ts_example).2
               = ("b"%string, 2) :: [("c"%string, 3); ("a"%string, 1)])
    by (vm_compute; reflexivity).
  assert (H3 : "d"%string ∉ TS.keys (TS.session 3 ts_example).2) by compute_done.
  assert (H4 : 3 <= Z.of_nat
                      (TS.map_size (TS.cache (TS.session 3 ts_example).2)))
    by (vm_compute; discriminate).
  split; [exact H1|]. split; [exact H2|]. split; [exact H3|].
  split; [exact H4|].
  exact (X12_ts_put_new_evicts_oldest 3 _ _ "b"%string 2 "d"%string 4 H1 H2 H3 H4).
Defined.

Lemma X13_witness :
  TS.reachable 3 (TS.session 3 (take 2 ts_example)).2 /\
  ("c"%string ∉ TS.keys (TS.session 3 (take 2 ts_example)).2) /\
  Z.of_nat (TS.map_size (TS.cache (TS.session 3 (take 2 ts_example)).2)) < 3 /\
  TS.put (TS.session 3 (take 2 ts_example)).2 "c"%string 3
    = TS.with_cache (TS.cache (TS.session 3 (take 2 ts_example)).2
                     ++ [("c"%string, 3)])
                    (TS.session 3 (take 2 ts_example)).2.
Proof.
  assert (H1 : TS.reachable 3 (TS.session 3 (take 2 ts_example)).2)
    by apply session_reachable.
  assert (H2 : "c"%string ∉ TS.keys (TS.session 3 (take 2 ts_example)).2)
    by compute_done.
  assert (H3 : Z.of_nat (TS.map_size
                           (TS.cache (TS.session 3 (take 2 ts_example)).2))
               < 3) by (vm_compute; reflexivity).
  split; [exact H1|]. split; [exact H2|]. split; [exact H3|].
  exact (X13_ts_put_new_with_room 3 _ "c"%string 3 H1 H2 H3).
Defined.

Lemma X14_witness :
  TS.reachable 0 (TS.session 0 [Put "a"%string 1]).2 /\
  last (TS.cache (TS.put (TS.session 0 [Put "a"%string 1]).2 "b"%string 2))
    = Some ("b"%string, 2) /\
  (TS.get (TS.put (TS.session 0 [Put "a"%string 1]).2 "b"%string 2) "b"%string).1 = Some 2.
Proof.
  assert (H1 : TS.reachable 0 (TS.session 0 [Put "a"%string 1]).2)
    by apply session_reachable.
  split; [exact H1|]. exact (X14_ts_put_then_get 0 _ "b"%string 2 H1).
Defined.

Lemma X15_witness :
  TS.reachable 0 (TS.session 0 [Put "a"%string 1; Put "b"%string 2]).2 /\
  Z.of_nat (TS.map_size (TS.cache (TS.session 0 [Put "a"%string 1; Put "b"%string 2]).2))
    <= Z.max 0 1.
Proof.
  assert (H1 : TS.reachable 0 (TS.session 0 [Put "a"%string 1; Put "b"%string 2]).2)
    by apply session_reachable.
  split; [exact H1|]. exact (X15_ts_size_bound 0 _ H1).
Defined.

Lemma X16_witness :
  TS.reachable 3 (TS.session 3 ts_example).2 /\
  "c"%string <> op_key (Put (V := Z) "d"%string 4) /\
  ("c"%string, 3) ∈ TS.cache (TS.call (Put "d"%string 4) (TS.session 3 ts_example).2).2 /\
  ("c"%string, 3) ∈ TS.cache (TS.session 3 ts_example).2.
Proof.
  assert (H1 : TS.reachable 3 (TS.session 3 ts_example).2)
    by apply session_reachable.
  assert (H2 : "c"%string <> op_key (Put (V := Z) "d"%string 4)) by compute_done.
  assert (H3 : ("c"%string, 3) ∈ TS.cache
                 (TS.call (Put "d"%string 4) (TS.session 3 ts_example).2).2)
    by compute_done.
  split; [exact H1|]. split; [exact H2|]. split; [exact H3|].
  exact (X16_ts_other_entries_untouched 3 _ (Put "d"%string 4) "c"%string 3 H1 H2 H3).
Defined.

Lemma X17_witness :
  0 <= 1 /\
  (TS.session 0 (ts_example ++ [Put "d"%string 4; Get "a"%string])).1
    = (TS.session 1 (ts_example ++ [Put "d"%string 4; Get "a"%string])).1 /\
  TS.cache (TS.session 0 (ts_example ++ [Put "d"%string 4; Get "a"%string])).2
    = TS.cache (TS.session 1 (ts_example ++ [Put "d"%string 4; Get "a"%string])).2.
Proof.
  assert (H1 : 0 <= 1) by lia.
  split; [exact H1|].
  exact (X17_ts_capacity_below_one_acts_as_one
           0 (ts_example ++ [Put "d"%string 4; Get "a"%string]) H1).
Defined.

End TsOrderWitnesses.
